(** * The help screen of Cataclysm: Bright Nights ([src/help.cpp])

    A shallow embedding of the help catalog ([help::deserialize]), of the
    static placeholders ([help::get_dir_grid], [help::get_note_colors]), of
    the two-column topic menu ([help::draw_menu]) and of the detail viewer
    with its [<press_ACTION>] placeholders ([help::display_help]), followed
    by the properties of the specification that were checked against them.

    Data: [std::string] is [string]; the catalog
    [std::map<int, std::pair<std::string, std::vector<std::string>>>] is a
    [gmap Z topic]; [std::vector] is [list]; positions of type [size_t] are
    [Z] in the range [0 .. 2^64 - 1] with [npos = 2^64 - 1]. *)

From Stdlib Require Import ZArith String Ascii List Bool Lia DecimalString.
From stdpp Require Import gmap list fin_maps strings.

Local Open Scope Z_scope.

(** ** Strings: the part of [std::string] and [string_utils] that is used *)

Module Str.

(** [size_t] is 64 bits wide; [std::string::npos] is its largest value. *)
Definition size_max : Z := 2 ^ 64.
Definition npos : Z := size_max - 1.
Definition wrap (z : Z) : Z := z mod size_max.

Definition string_size (s : string) : Z := Z.of_nat (String.length s).

(** [s.find(needle, pos)]: the first position at or after [pos] where
    [needle] starts, [npos] when there is none or when [pos] lies past
    the end. *)
Definition find (s needle : string) (pos : Z) : Z :=
  if string_size s <? pos then npos
  else match String.index (Z.to_nat pos) needle s with
       | Some p => Z.of_nat p
       | None => npos
       end.

(** [s.substr(pos, count)] for [pos <= s.size()]: [count] characters from
    [pos], or as many as are left. *)
Definition substr (s : string) (pos count : Z) : string :=
  let start := Z.to_nat pos in
  let left := (String.length s - start)%nat in
  if Z.of_nat left <=? count then String.substring start left s
  else String.substring start (Z.to_nat count) s.

(** The scan of [replace_all]: [skip] characters of a match that has just
    been replaced are still to be dropped. *)
Fixpoint replace_from (before after : string) (skip : nat) (text : string) : string :=
  match text with
  | EmptyString => EmptyString
  | String c rest =>
      match skip with
      | S n => replace_from before after n rest
      | O =>
          if String.prefix before text
          then after +:+ replace_from before after (String.length before - 1)%nat rest
          else String c (replace_from before after 0 rest)
      end
  end.

(** Modelled from the spec: [replace_all] of [string_utils] is not among
    the sources. It replaces all occurrences of the token, left to right;
    the text that was put in is not scanned again, and an empty token
    changes nothing. *)
Definition replace_all (text before after : string) : string :=
  if String.eqb before "" then text else replace_from before after 0 text.

(** [text] has an occurrence of [token]. *)
Definition contains (text token : string) : bool :=
  match String.index 0 token text with Some _ => true | None => false end.

(** [std::accumulate] over the tail with [lhs + sep + rhs]. *)
Definition accumulate_sep (sep : string) (rest : list string) (init : string) : string :=
  fold_left (fun lhs rhs => (lhs +:+ sep) +:+ rhs) rest init.

End Str.

Import Str.

(** The line feed of a C++ string literal. *)
Definition nl : string := String "010" EmptyString.

(** ** JSON input: the part of [JsonIn] and [JsonObject] that is used *)

#[warnings="-register-all"]
Inductive json_value :=
| JNull
| JBool (b : bool)
| JInt (n : Z)
| JString (s : string)
| JArray (items : list json_value).

(** A [JsonObject] maps member names to values. *)
Abbreviation JsonObject := (gmap string json_value).

(** The exception that the JSON readers raise (the spec's DataError). *)
Inductive load_error := DataError.

Inductive result (A : Type) :=
| Ok (a : A)
| Throw (e : load_error).
Arguments Ok {A} a.
Arguments Throw {A} e.

Definition as_string (v : json_value) : option string :=
  match v with JString s => Some s | _ => None end.

(** Modelled from the spec: the JSON reader ([json.h]) is not among the
    sources. [jo.get_string(name)] raises unless the member is there and
    holds a string. *)
Definition get_string (jo : JsonObject) (name : string) : result string :=
  match jo !! name with
  | Some (JString s) => Ok s
  | _ => Throw DataError
  end.

(** Modelled from the spec: [jo.get_int(name)] raises unless the member is
    there and holds a number, the [int] that it is read as. *)
Definition get_int (jo : JsonObject) (name : string) : result Z :=
  match jo !! name with
  | Some (JInt n) => Ok n
  | _ => Throw DataError
  end.

(** Modelled from the spec: reading a [std::vector<std::string>] from a
    value raises unless the value is an array of strings. *)
Definition read_strings (v : json_value) : result (list string) :=
  match v with
  | JArray items =>
      match mapM as_string items with
      | Some l => Ok l
      | None => Throw DataError
      end
  | _ => Throw DataError
  end.

(** ** The consumed interfaces

    Key bindings, translation, colours, paths, text width and the window
    are outside [help.cpp]; the embedding takes them as given. *)

Inductive action_id :=
| ACTION_MOVE_FORTH_LEFT | ACTION_MOVE_FORTH | ACTION_MOVE_FORTH_RIGHT
| ACTION_MOVE_LEFT | ACTION_PAUSE | ACTION_MOVE_RIGHT
| ACTION_MOVE_BACK_LEFT | ACTION_MOVE_BACK | ACTION_MOVE_BACK_RIGHT.

Class Externals := {
  (** the translation macro [_( ... )] *)
  translate : string -> string;
  (** [get_note_color_names()], in iteration order *)
  note_color_names : list (string * string);
  (** [colorize( id, get_note_color( id ) )] *)
  colorize_note : string -> string;
  (** [keys_bound_to( action )] *)
  keys_bound_to : action_id -> list ascii;
  (** [resolved_game_paths()] *)
  resolved_game_paths : string;
  (** [get_hotkeys( name )] *)
  get_hotkeys : string -> list string;
  (** [press_x( look_up_action( ident ), "", "" )] *)
  press_x : string -> string;
  (** [utf8_width( text )] *)
  utf8_width : string -> Z;
  (** [getmaxx( w_help )] *)
  menu_width : Z;
  (** the number of lines the heading of the menu takes ([fold_and_print]) *)
  heading_lines : Z;
  (** whether [JsonObject::read] raises when the member is absent; the
      JSON library is not among the sources and [deserialize] ignores the
      value that [read] returns *)
  read_absent_throws : bool
}.

(** ** The catalog *)

(** A topic: its name and its paragraphs. *)
Abbreviation topic := (string * list string)%type.

(** The value that [std::map::operator[]] creates for a key that is absent. *)
Definition default_topic : topic := (EmptyString, []).

Record help := Help {
  help_texts : gmap Z topic;
  hotkeys : list (list string)
}.

(** The instance behind [get_help()] before anything is loaded. *)
Definition single_instance : help := Help ∅ [].

(** [help_texts[k]]: [operator[]] puts a default topic under a key that is
    absent and hands out the topic that is now stored under the key. *)
Definition index_topic (ht : gmap Z topic) (k : Z) : gmap Z topic * topic :=
  match ht !! k with
  | Some t => (ht, t)
  | None => (<[k := default_topic]> ht, default_topic)
  end.

(** Conversion of an integer to [int] (32 bits, two's complement). *)
Definition to_int (z : Z) : Z := (z + 2 ^ 31) mod 2 ^ 32 - 2 ^ 31.

(** Modelled from the spec: [action_ident] of [action.cpp] is not among the
    sources. The identifiers of the nine move actions are those that the
    slots of the diagram in [get_dir_grid] carry. *)
Definition action_ident (a : action_id) : string :=
  match a with
  | ACTION_MOVE_FORTH_LEFT => "LEFTUP"
  | ACTION_MOVE_FORTH => "UP"
  | ACTION_MOVE_FORTH_RIGHT => "RIGHTUP"
  | ACTION_MOVE_LEFT => "LEFT"
  | ACTION_PAUSE => "pause"
  | ACTION_MOVE_RIGHT => "RIGHT"
  | ACTION_MOVE_BACK_LEFT => "LEFTDOWN"
  | ACTION_MOVE_BACK => "DOWN"
  | ACTION_MOVE_BACK_RIGHT => "RIGHTDOWN"
  end.

Definition movearray : list action_id :=
  [ ACTION_MOVE_FORTH_LEFT; ACTION_MOVE_FORTH; ACTION_MOVE_FORTH_RIGHT;
    ACTION_MOVE_LEFT; ACTION_PAUSE; ACTION_MOVE_RIGHT;
    ACTION_MOVE_BACK_LEFT; ACTION_MOVE_BACK; ACTION_MOVE_BACK_RIGHT ].

(** The diagram of [get_dir_grid] before any slot is filled. *)
Definition movement_template : string :=
  "<LEFTUP_0>  <UP_0>  <RIGHTUP_0>   <LEFTUP_1>  <UP_1>  <RIGHTUP_1>" +:+ nl +:+
  " \ | /     \ | /" +:+ nl +:+
  "  \|/       \|/" +:+ nl +:+
  "<LEFT_0>--<pause_0>--<RIGHT_0>   <LEFT_1>--<pause_1>--<RIGHT_1>" +:+ nl +:+
  "  /|\       /|\" +:+ nl +:+
  " / | \     / | \" +:+ nl +:+
  "<LEFTDOWN_0>  <DOWN_0>  <RIGHTDOWN_0>   <LEFTDOWN_1>  <DOWN_1>  <RIGHTDOWN_1>".

(** [string_format( "_%d>", i )]. *)
Definition slot_suffix (i : nat) : string :=
  "_" +:+ NilZero.string_of_uint (Nat.to_uint i) +:+ ">".

(** The token of slot [i] of a direction. *)
Definition slot_token (dir : action_id) (i : nat) : string :=
  "<" +:+ action_ident dir +:+ slot_suffix i.

(** What a slot is filled with: [keys[i]] in light blue when [i] is below
    [keys.size()], a red question mark otherwise. [keys[i]] is a [char];
    [string_format] with [%s] prints it as the one character. *)
Definition slot_text (keys : list ascii) (i : nat) : string :=
  if (i <? length keys)%nat
  then "<color_light_blue>" +:+ String (nth i keys "000"%char) EmptyString +:+ "</color>"
  else "<color_red>?</color>".

Section Help.
Context `{E : Externals}.

Definition get_note_colors : string :=
  fold_left
    (fun text color_pair =>
       text +:+ (colorize_note color_pair.1 +:+ ":" +:+ translate color_pair.2 +:+ ", "))
    note_color_names (translate "Note colors: ").

(** The body of the loop over the two slots of a direction. *)
Definition fill_slot (dir : action_id) (movement : string) (i : nat) : string :=
  let keys := keys_bound_to dir in
  let what := slot_token dir i in
  let with_ := slot_text keys i in
  replace_all movement what with_.

Definition fill_direction (movement : string) (dir : action_id) : string :=
  fold_left (fill_slot dir) [0; 1]%nat movement.

Definition get_dir_grid : string :=
  fold_left fill_direction movearray movement_template.

(** The body of the loop over the messages of a record. *)
Definition expand_line (note_colors dir_grid : string) (line : string) : string :=
  if String.eqb line "<DRAW_NOTE_COLORS>"
  then replace_all line "<DRAW_NOTE_COLORS>" note_colors
  else if String.eqb line "<HELP_DRAW_DIRECTIONS>"
  then replace_all line "<HELP_DRAW_DIRECTIONS>" dir_grid
  else if String.eqb line "<GAME_DIRECTORIES>"
  then resolved_game_paths
  else line.

(** [jo.read( "messages", messages )] into an empty vector. *)
Definition read_messages (jo : JsonObject) : result (list string) :=
  match jo !! "messages" with
  | Some v => read_strings v
  | None => if read_absent_throws then Throw DataError else Ok []
  end.

(** One turn of the loop of [deserialize], up to the two stores: the order,
    the name and the expanded messages of the record. *)
Definition load_record (note_colors dir_grid : string) (jo : JsonObject)
  : result (Z * topic) :=
  match read_messages jo with
  | Throw e => Throw e
  | Ok messages =>
      let messages := expand_line note_colors dir_grid <$> messages in
      match get_string jo "type" with
      | Throw e => Throw e
      | Ok _ =>
          match get_string jo "name" with
          | Throw e => Throw e
          | Ok name =>
              match get_int jo "order" with
              | Throw e => Throw e
              | Ok order => Ok (order, (name, messages))
              end
          end
      end
  end.

(** The loop of [deserialize] over the objects of the array. The catalog is
    changed in place: what was stored when a record raises stays stored. *)
Fixpoint load_records (note_colors dir_grid : string) (h : help)
  (jos : list JsonObject) : help * option load_error :=
  match jos with
  | [] => (h, None)
  | jo :: rest =>
      match load_record note_colors dir_grid jo with
      | Throw e => (h, Some e)
      | Ok (order, t) =>
          load_records note_colors dir_grid
            (Help (<[order := t]> (help_texts h)) (hotkeys h ++ [get_hotkeys t.1]))
            rest
      end
  end.

Definition deserialize (h : help) (jos : list JsonObject) : help * option load_error :=
  let h := Help (help_texts h) [] in
  let note_colors := get_note_colors in
  let dir_grid := get_dir_grid in
  load_records note_colors dir_grid h jos.

(** ** The menu *)

(** One call of [shortcut_print]: where, and which text. *)
Record shortcut := Shortcut {
  at_x : Z;
  at_y : Z;
  label : string
}.

(** Modelled from the spec: [divide_round_up] of [cata_utility] is not among
    the sources; it is the quotient rounded up. *)
Definition divide_round_up (num den : Z) : Z := (num + den - 1) `quot` den.

(** The loop of [draw_menu]. [help_texts.size()] is read anew in every turn,
    and [help_texts[i]] may add a topic. [fuel] bounds the number of turns;
    [None] says that the loop is still running when it is used up. The
    index [i] is a [size_t] and becomes an [int] as the key and in the row;
    widths and columns are [int]s far from the ends of their range, and are
    taken in [Z]. *)
Fixpoint draw_menu_loop (fuel : nat) (half_size : nat) (y : Z) (i : nat)
  (ht : gmap Z topic) (second_column : Z) (out : list shortcut)
  : option (gmap Z topic * list shortcut) :=
  match fuel with
  | O => None
  | S fuel =>
      if (i <? size ht)%nat then
        let '(ht, t) := index_topic ht (to_int (Z.of_nat i)) in
        let cat_name := translate t.1 in
        let second_column :=
          if (i <? half_size)%nat
          then Z.max second_column (utf8_width cat_name + 4)
          else second_column in
        let p := Shortcut (if (i <? half_size)%nat then 1 else second_column)
                          (to_int (y + Z.of_nat (i mod half_size)))
                          cat_name in
        draw_menu_loop fuel half_size y (S i) ht second_column (out ++ [p])
      else Some (ht, out)
  end.

Definition draw_menu (fuel : nat) (ht : gmap Z topic)
  : option (gmap Z topic * list shortcut) :=
  let y := heading_lines + 1 in
  let half_size := (size ht / 2 + 1)%nat in
  let second_column := divide_round_up menu_width 2 in
  draw_menu_loop fuel half_size y 0 ht second_column [].

(** ** The detail viewer *)

(** The [while] loop that expands the [<press_ACTION>] tokens of a line.
    [log] collects the calls of [debugmsg]. *)
Fixpoint expand_press (fuel : nat) (line_proc : string) (pos : Z)
  (log : list string) : option (string * list string) :=
  match fuel with
  | O => None
  | S fuel =>
      if pos =? npos then Some (line_proc, log)
      else
        let pos2 := find line_proc ">" pos in
        let action := substr line_proc (pos + 7) (wrap (pos2 - pos - 7)) in
        let replace := "<color_light_blue>" +:+ press_x action +:+ "</color>" in
        let '(line_proc, log) :=
          if String.eqb replace ""
          then (line_proc, log ++ ["Help json: Unknown action: " +:+ action])
          else (replace_all line_proc ("<press_" +:+ action +:+ ">") replace, log) in
        expand_press fuel line_proc (find line_proc "<press_" pos2) log
  end.

(** The function that [std::transform] applies to every message. *)
Definition resolve_line (fuel : nat) (line : string) : option (string * list string) :=
  let line_proc := translate line in
  expand_press fuel line_proc (find line_proc "<press_" 0) [].

Fixpoint resolve_lines (fuel : nat) (lines : list string)
  : option (list string * list string) :=
  match lines with
  | [] => Some ([], [])
  | line :: rest =>
      '(line_proc, log1) ← resolve_line fuel line;
      '(more, log2) ← resolve_lines fuel rest;
      Some (line_proc :: more, log1 ++ log2)
  end.

(** What is on the screen and in the debug log while the help is shown. *)
Record screen := Screen {
  catalog : gmap Z topic;
  menus : list (list shortcut);
  popups : list string;
  debug_log : list string
}.

(** The document handed to [scrollable_text], if there is one. *)
Definition document (i18n_help_texts : list string) : option string :=
  match i18n_help_texts with
  | [] => None
  | front :: rest => Some (accumulate_sep (nl +:+ nl) rest front)
  end.

(** The body of [if( sInput == hotkey )] for the topic at index [i]. *)
Definition select_topic (fuel : nat) (i : nat) (st : screen) : option screen :=
  let '(ht, t) := index_topic (catalog st) (to_int (Z.of_nat i)) in
  '(i18n_help_texts, log) ← resolve_lines fuel t.2;
  Some (Screen ht (menus st)
               (popups st ++ from_option (λ d, [d]) [] (document i18n_help_texts))
               (debug_log st ++ log)).

(** The loop over [hotkeys]; the inner loop stops at the first hotkey equal
    to the input. Gives the screen and the value of [action]. *)
Fixpoint scan_hotkeys (fuel : nat) (sInput : string) (i : nat)
  (hks : list (list string)) (st : screen) (action : string)
  : option (screen * string) :=
  match hks with
  | [] => Some (st, action)
  | keys :: rest =>
      if existsb (String.eqb sInput) keys
      then st ← select_topic fuel i st;
           scan_hotkeys fuel sInput (S i) rest st "CONFIRM"
      else scan_hotkeys fuel sInput (S i) rest st action
  end.

(** The [do ... while( action != "QUIT" )] loop of [display_help] over the
    inputs that [ctxt.handle_input()] delivers: the action and the raw text
    of each. Every turn redraws the menu first. *)
Fixpoint display_help (fuel : nat) (hks : list (list string))
  (inputs : list (string * string)) (st : screen) : option screen :=
  match inputs with
  | [] => Some st
  | (action, sInput) :: later =>
      '(ht, menu) ← draw_menu fuel (catalog st);
      let st := Screen ht (menus st ++ [menu]) (popups st) (debug_log st) in
      '(st, action) ← scan_hotkeys fuel sInput 0 hks st action;
      if String.eqb action "QUIT" then Some st
      else display_help fuel hks later st
  end.

End Help.

(** ** Notions of the specification *)

(** The fields of a well-formed record. *)
Record topic_record := TopicRecord {
  rec_name : string;
  rec_order : Z;
  rec_messages : list string
}.

(** [jo] is well formed and carries the fields of [r]. *)
Definition well_formed (jo : JsonObject) (r : topic_record) : Prop :=
  (∃ ty, jo !! "type" = Some (JString ty))
  ∧ jo !! "name" = Some (JString (rec_name r))
  ∧ jo !! "order" = Some (JInt (rec_order r))
  ∧ jo !! "messages" = Some (JArray (JString <$> rec_messages r)).

(** Every index of [hotkeys] is the order of a topic whose name gives these
    hotkeys, and there are as many topics as entries of [hotkeys]. *)
Definition aligned `{E : Externals} (h : help) : Prop :=
  length (hotkeys h) = size (help_texts h)
  ∧ ∀ (i : nat) keys, hotkeys h !! i = Some keys →
      ∃ name messages,
        help_texts h !! Z.of_nat i = Some (name, messages) ∧ keys = get_hotkeys name.

(** The topic that a well-formed record stores. *)
Definition stored `{E : Externals} (note_colors dir_grid : string)
  (r : topic_record) : topic :=
  (rec_name r, expand_line note_colors dir_grid <$> rec_messages r).

(** The catalog after the records have been stored one after the other. *)
Definition store_all `{E : Externals} (note_colors dir_grid : string)
  (rs : list topic_record) (ht : gmap Z topic) : gmap Z topic :=
  fold_left (λ m r, <[rec_order r := stored note_colors dir_grid r]> m) rs ht.

(** ** The diagram as pieces

    The template of [get_dir_grid] cut at its slots, to say what the filled
    diagram is. *)

Inductive segment :=
| Lit (s : string)
| Slot (dir : action_id) (i : nat).

Definition piece (slot : action_id → nat → string) (seg : segment) : string :=
  match seg with
  | Lit s => s
  | Slot dir i => slot dir i
  end.

(** The pieces one after the other, each slot filled by [slot]. *)
Definition render (slot : action_id → nat → string) (segs : list segment) : string :=
  foldr (λ seg rest, piece slot seg +:+ rest) EmptyString segs.

Definition diagram : list segment :=
  [ Slot ACTION_MOVE_FORTH_LEFT 0; Lit "  "; Slot ACTION_MOVE_FORTH 0; Lit "  ";
    Slot ACTION_MOVE_FORTH_RIGHT 0; Lit "   ";
    Slot ACTION_MOVE_FORTH_LEFT 1; Lit "  "; Slot ACTION_MOVE_FORTH 1; Lit "  ";
    Slot ACTION_MOVE_FORTH_RIGHT 1;
    Lit (nl +:+ " \ | /     \ | /" +:+ nl +:+ "  \|/       \|/" +:+ nl);
    Slot ACTION_MOVE_LEFT 0; Lit "--"; Slot ACTION_PAUSE 0; Lit "--";
    Slot ACTION_MOVE_RIGHT 0; Lit "   ";
    Slot ACTION_MOVE_LEFT 1; Lit "--"; Slot ACTION_PAUSE 1; Lit "--";
    Slot ACTION_MOVE_RIGHT 1;
    Lit (nl +:+ "  /|\       /|\" +:+ nl +:+ " / | \     / | \" +:+ nl);
    Slot ACTION_MOVE_BACK_LEFT 0; Lit "  "; Slot ACTION_MOVE_BACK 0; Lit "  ";
    Slot ACTION_MOVE_BACK_RIGHT 0; Lit "   ";
    Slot ACTION_MOVE_BACK_LEFT 1; Lit "  "; Slot ACTION_MOVE_BACK 1; Lit "  ";
    Slot ACTION_MOVE_BACK_RIGHT 1 ].

(** What the specification says a slot resolves to: the [i]-th bound key in
    light blue when the direction has more than [i] keys, a red question
    mark otherwise. *)
Definition slot_spec (keys : list ascii) (i : nat) : string :=
  match keys !! i with
  | Some key => "<color_light_blue>" +:+ String key EmptyString +:+ "</color>"
  | None => "<color_red>?</color>"
  end.

#[global] Instance action_id_eq_dec : EqDecision action_id.
Proof. solve_decision. Defined.

#[global] Instance segment_eq_dec : EqDecision segment.
Proof. solve_decision. Defined.

(** The slots in the order in which [get_dir_grid] fills them. *)
Definition all_slots : list (action_id * nat) :=
  dir ← movearray; [(dir, 0%nat); (dir, 1%nat)].

(** The state of the slots once those of [filled_slots] have been filled. *)
Definition filled (keys : action_id → list ascii) (filled_slots : list (action_id * nat))
  (dir : action_id) (i : nat) : string :=
  if bool_decide ((dir, i) ∈ filled_slots) then slot_text (keys dir) i
  else slot_token dir i.

(** No occurrence of [t] starts inside [p], whatever follows [p]. *)
Fixpoint no_clash (t p : string) : bool :=
  match p with
  | EmptyString => true
  | String _ p' =>
      negb (String.prefix t p) && negb (String.prefix p t) && no_clash t p'
  end.

(** [replace_all] for the token [t] passes over [p] and leaves it alone. *)
Definition inert (t p : string) : Prop :=
  ∀ after rest,
    replace_from t after 0 (p +:+ rest) = p +:+ replace_from t after 0 rest.

(** The pieces, those of the slot itself apart, do not clash with its token. *)
Definition pieces_clear (dir : action_id) (i : nat) (segs : list segment) : bool :=
  forallb (λ seg,
             match seg with
             | Lit s => no_clash (slot_token dir i) s
             | Slot dir' i' =>
                 bool_decide ((dir', i') = (dir, i))
                 || no_clash (slot_token dir i) (slot_token dir' i')
             end) segs.

(** ** The menu in closed form *)

(** The name that the menu shows for index [j]: that of the topic stored
    under [j], or the empty name of a default topic. *)
Definition name_at (ht : gmap Z topic) (j : nat) : string :=
  (default default_topic (ht !! Z.of_nat j)).1.

Definition labels_from `{E : Externals} (ht : gmap Z topic) (i n : nat) : list string :=
  (λ j, translate (name_at ht j)) <$> seq i n.

(** The catalog after [help_texts[j]] has been read for [n] indices from [i]. *)
Fixpoint fill_gaps (ht : gmap Z topic) (i n : nat) : gmap Z topic :=
  match n with
  | O => ht
  | S n => fill_gaps (index_topic ht (Z.of_nat i)).1 (S i) n
  end.

(** The calls of [shortcut_print] for the labels from index [i] on. *)
Fixpoint menu_rows `{E : Externals} (half_size : nat) (y : Z) (labels : list string)
  (i : nat) (second_column : Z) : list shortcut :=
  match labels with
  | [] => []
  | cat_name :: labels =>
      let second_column :=
        if (i <? half_size)%nat
        then Z.max second_column (utf8_width cat_name + 4)
        else second_column in
      Shortcut (if (i <? half_size)%nat then 1 else second_column)
               (to_int (y + Z.of_nat (i mod half_size))) cat_name
      :: menu_rows half_size y labels (S i) second_column
  end.

(** The offset of the second column, given the labels of the first. *)
Definition second_column_for `{E : Externals} (first_column : list string) : Z :=
  fold_left (λ sc cat_name, Z.max sc (utf8_width cat_name + 4)) first_column
    (divide_round_up menu_width 2).

(** The orders of the catalog are not negative, and [M] is one more than
    the largest of them ([0] when there is no topic). *)
Definition orders_below (ht : gmap Z topic) (M : nat) : Prop :=
  (∀ k, is_Some (ht !! k) → 0 ≤ k < Z.of_nat M)
  ∧ (M = 0%nat ∨ is_Some (ht !! (Z.of_nat M - 1)))
  ∧ Z.of_nat M ≤ 2 ^ 31.

(** ** A sample session

    Concrete key bindings and a concrete window, for the examples below. *)

Definition sample_keys (a : action_id) : list ascii :=
  match a with
  | ACTION_MOVE_LEFT => ["h"; "4"]%char
  | ACTION_MOVE_FORTH => ["k"]%char
  | _ => []
  end.

Definition sample_press (ident : string) : string :=
  if String.eqb ident "open" then "o"
  else if String.eqb ident "toggle_auto_pulp_butcher" then "k"
  else "".

Definition sample : Externals := {|
  translate := fun s => s;
  note_color_names := [("R", "red"); ("G", "green")];
  colorize_note := fun id => "<color_note>" +:+ id +:+ "</color>";
  keys_bound_to := sample_keys;
  resolved_game_paths := "/usr/share/cataclysm-bn/";
  get_hotkeys := fun name => [String.substring 0 1 name];
  press_x := sample_press;
  utf8_width := fun s => Z.of_nat (String.length s);
  menu_width := 78;
  heading_lines := 2;
  read_absent_throws := false
|}.

(** The same session with a JSON library whose [read] raises on an absent
    member. *)
Definition sample_strict : Externals := {|
  translate := fun s => s;
  note_color_names := [("R", "red"); ("G", "green")];
  colorize_note := fun id => "<color_note>" +:+ id +:+ "</color>";
  keys_bound_to := sample_keys;
  resolved_game_paths := "/usr/share/cataclysm-bn/";
  get_hotkeys := fun name => [String.substring 0 1 name];
  press_x := sample_press;
  utf8_width := fun s => Z.of_nat (String.length s);
  menu_width := 78;
  heading_lines := 2;
  read_absent_throws := true
|}.

(** A record with all four members. *)
Definition record (name : string) (order : Z) (messages : list string) : JsonObject :=
  <["type" := JString "help"]>
    (<["name" := JString name]>
       (<["order" := JInt order]>
          (<["messages" := JArray (JString <$> messages)]> ∅))).

(** Catalogs for the examples of the menu: three topics in a row, three
    topics with gaps between their orders, and one with a negative order. *)
Definition dense_catalog : gmap Z topic :=
  {[0 := ("<M>ovement", []); 1 := ("<I>tems", []); 2 := ("<C>rafting", [])]}.

Definition sparse_catalog : gmap Z topic :=
  {[0 := ("<M>ovement", []); 2 := ("<I>tems", []); 4 := ("<C>rafting", [])]}.

Definition negative_catalog : gmap Z topic :=
  {[-1 := ("<M>ovement", []); 1 := ("<I>tems", [])]}.

(** A catalog of two topics for the examples of the viewer. *)
Definition sample_catalog : gmap Z topic :=
  {[0 := ("Movement", ["Press <press_open>."; "Second paragraph."]);
    1 := ("Items", [])]}.

(** ** The windows of the help screen *)

(** A window of [catacurses::newwin]: its size and where its corner is. *)
Record window := Window {
  win_height : Z;
  win_width : Z;
  win_x : Z;
  win_y : Z
}.

(** [TERM > FULL ? ( TERM - FULL ) / 2 : 0], in [int]s far from overflow. *)
Definition centred (term full : Z) : Z :=
  if full <? term then (term - full) `quot` 2 else 0.

(** [init_windows] of [display_help]: the window of the border and the
    window of the help inside it. [FULL_SCREEN_HEIGHT] and
    [FULL_SCREEN_WIDTH] are macros that are not among the sources, and
    [TERMX], [TERMY] are the size of the terminal; all four are given. *)
Definition init_windows (full_height full_width termx termy : Z) : window * window :=
  (Window full_height full_width
          (centred termx full_width) (centred termy full_height),
   Window (full_height - 2) (full_width - 2)
          (1 + centred termx full_width) (1 + centred termy full_height)).

(** ** Further notions *)

(** No occurrence of [t] starts anywhere in [text]. *)
Fixpoint absent (t text : string) : bool :=
  match text with
  | EmptyString => true
  | String _ rest => negb (String.prefix t text) && absent t rest
  end.

(** One entry of the legend of the note colours. *)
Definition note_color_entry `{E : Externals} (color_pair : string * string) : string :=
  colorize_note color_pair.1 +:+ ":" +:+ translate color_pair.2 +:+ ", ".

(** The sample session with three keys bound to the move to the left; the
    third key is the only difference from [sample]. *)
Definition sample_more_keys (a : action_id) : list ascii :=
  match a with
  | ACTION_MOVE_LEFT => ["h"; "4"; "a"]%char
  | ACTION_MOVE_FORTH => ["k"]%char
  | _ => []
  end.

Definition sample_rebound : Externals := {|
  translate := fun s => s;
  note_color_names := [("R", "red"); ("G", "green")];
  colorize_note := fun id => "<color_note>" +:+ id +:+ "</color>";
  keys_bound_to := sample_more_keys;
  resolved_game_paths := "/usr/share/cataclysm-bn/";
  get_hotkeys := fun name => [String.substring 0 1 name];
  press_x := sample_press;
  utf8_width := fun s => Z.of_nat (String.length s);
  menu_width := 78;
  heading_lines := 2;
  read_absent_throws := false
|}.

(** The character [c] is not in [s]. *)
Fixpoint lacks (c : ascii) (s : string) : bool :=
  match s with
  | EmptyString => true
  | String a rest => negb (Ascii.eqb a c) && lacks c rest
  end.

(** * Properties *)

(** ** Strings *)

Lemma string_app_cons (c : ascii) (s1 s2 : string) :
  String c s1 +:+ s2 = String c (s1 +:+ s2).
Proof. reflexivity. Qed.

Lemma string_app_nil_r (s : string) : s +:+ "" = s.
Proof. induction s as [|c s IH]; [done | by rewrite string_app_cons, IH]. Qed.

Lemma string_app_assoc (s1 s2 s3 : string) : (s1 +:+ s2) +:+ s3 = s1 +:+ (s2 +:+ s3).
Proof. induction s1 as [|c s1 IH]; [done | by rewrite !string_app_cons, IH]. Qed.

Lemma prefix_refl_app (t rest : string) : String.prefix t (t +:+ rest) = true.
Proof.
  induction t as [|c t IH]; [by destruct rest |].
  rewrite string_app_cons. cbn [String.prefix].
  destruct (ascii_dec c c); [exact IH | done].
Qed.

(** Dropping what is left of a replaced match. *)
Lemma replace_from_skip (before after t rest : string) :
  replace_from before after (String.length t) (t +:+ rest)
  = replace_from before after 0 rest.
Proof.
  induction t as [|c t IH]; [by destruct rest |].
  rewrite string_app_cons. exact IH.
Qed.

(** A text that starts with the token: the token goes, the rest is scanned. *)
Lemma replace_from_token (before after rest : string) :
  before ≠ EmptyString →
  replace_from before after 0 (before +:+ rest)
  = after +:+ replace_from before after 0 rest.
Proof.
  destruct before as [|c t]; [done | intros _].
  rewrite string_app_cons. cbn [replace_from].
  change (String c (t +:+ rest)) with (String c t +:+ rest).
  rewrite prefix_refl_app.
  replace (String.length (String c t) - 1)%nat with (String.length t)
    by (cbn [String.length]; lia).
  by rewrite replace_from_skip.
Qed.

(** Replacing a token in the text that is the token leaves the replacement. *)
Lemma replace_all_whole (token after : string) :
  token ≠ EmptyString → replace_all token token after = after.
Proof.
  intros Hne. unfold replace_all.
  destruct (String.eqb_spec token ""); [done |].
  rewrite <- (string_app_nil_r token) at 2.
  rewrite replace_from_token by done. apply string_app_nil_r.
Qed.

(** ** Static placeholders at load time *)

(** C1, as amended: a message line that is exactly one of the three static
    tokens is replaced by the expansion of that token, the tokens being
    tried in the order DRAW_NOTE_COLORS, HELP_DRAW_DIRECTIONS,
    GAME_DIRECTORIES; every other line, also one that has a token inside
    it, stays as it is. *)
Theorem expand_line_exact `{E : Externals} (note_colors dir_grid line : string) :
  expand_line note_colors dir_grid line =
    if String.eqb line "<DRAW_NOTE_COLORS>" then note_colors
    else if String.eqb line "<HELP_DRAW_DIRECTIONS>" then dir_grid
    else if String.eqb line "<GAME_DIRECTORIES>" then resolved_game_paths
    else line.
Proof.
  unfold expand_line.
  destruct (String.eqb_spec line "<DRAW_NOTE_COLORS>") as [->|_].
  { by apply replace_all_whole. }
  destruct (String.eqb_spec line "<HELP_DRAW_DIRECTIONS>") as [->|_].
  { by apply replace_all_whole. }
  reflexivity.
Qed.

(** C1 as stated fails: this line contains the token of the note colours,
    and loading leaves it as it is instead of putting the legend in its
    place. *)
Lemma token_inside_line_not_expanded :
  contains "See <DRAW_NOTE_COLORS>" "<DRAW_NOTE_COLORS>" = true
  ∧ @expand_line sample (@get_note_colors sample) (@get_dir_grid sample)
      "See <DRAW_NOTE_COLORS>" = "See <DRAW_NOTE_COLORS>"
  ∧ @expand_line sample (@get_note_colors sample) (@get_dir_grid sample)
      "See <DRAW_NOTE_COLORS>" ≠ @get_note_colors sample.
Proof. split; [|split]; [by vm_compute | by vm_compute | by vm_compute]. Qed.

(** ** Loading the catalog *)

Section Load.
Context `{E : Externals}.
Variables note_colors dir_grid : string.

Lemma load_records_app (h : help) (pre post : list JsonObject) :
  load_records note_colors dir_grid h (pre ++ post) =
    match load_records note_colors dir_grid h pre with
    | (h', None) => load_records note_colors dir_grid h' post
    | (h', Some e) => (h', Some e)
    end.
Proof.
  revert h. induction pre as [|jo pre IH]; intros h; [done |].
  cbn [app load_records].
  destruct (load_record note_colors dir_grid jo) as [[order t]|e]; [apply IH | done].
Qed.

(** A record that lacks a member which the loop reads raises. *)
Lemma load_record_missing (jo : JsonObject) :
  jo !! "type" = None ∨ jo !! "name" = None ∨ jo !! "order" = None
  ∨ (read_absent_throws = true ∧ jo !! "messages" = None) →
  load_record note_colors dir_grid jo = Throw DataError.
Proof.
  intros Hmiss. unfold load_record, read_messages, get_string, get_int.
  destruct Hmiss as [Hm|[Hm|[Hm|[Hs Hm]]]]; rewrite Hm; try rewrite Hs;
    repeat (case_match; try done);
    by repeat match goal with e : load_error |- _ => destruct e end.
Qed.

(** A well-formed record loads. *)
Lemma load_record_well_formed (jo : JsonObject) (r : topic_record) :
  well_formed jo r →
  load_record note_colors dir_grid jo =
    Ok (rec_order r, (rec_name r, expand_line note_colors dir_grid <$> rec_messages r)).
Proof.
  intros ([ty Hty] & Hname & Horder & Hmsgs).
  unfold load_record, read_messages, get_string, get_int, read_strings.
  rewrite Hty, Hname, Horder, Hmsgs.
  replace (mapM as_string (JString <$> rec_messages r)) with (Some (rec_messages r)); [done |].
  symmetry. apply mapM_Some. clear Hmsgs.
  induction (rec_messages r) as [|m ms IH]; cbn; by constructor.
Qed.

Lemma load_records_well_formed (h : help) (jos : list JsonObject) (rs : list topic_record) :
  Forall2 well_formed jos rs →
  load_records note_colors dir_grid h jos =
    (Help (store_all note_colors dir_grid rs (help_texts h))
          (hotkeys h ++ ((λ r, get_hotkeys (rec_name r)) <$> rs)), None).
Proof.
  intros Hwf. revert h. induction Hwf as [|jo r jos rs Hjo _ IH]; intros h.
  - cbn. rewrite List.app_nil_r. by destruct h.
  - cbn [load_records]. rewrite (load_record_well_formed _ _ Hjo).
    rewrite IH. cbn. by rewrite <- List.app_assoc.
Qed.

Lemma store_all_cons (r : topic_record) (rs : list topic_record) (ht : gmap Z topic) :
  store_all note_colors dir_grid (r :: rs) ht
  = store_all note_colors dir_grid rs (<[rec_order r := stored note_colors dir_grid r]> ht).
Proof. reflexivity. Qed.

Lemma store_all_other (rs : list topic_record) (ht : gmap Z topic) (k : Z) :
  k ∉ rec_order <$> rs → store_all note_colors dir_grid rs ht !! k = ht !! k.
Proof.
  revert ht. induction rs as [|r rs IH]; intros ht Hk; [done |].
  rewrite fmap_cons, not_elem_of_cons in Hk. destruct Hk as [Hne Hk].
  rewrite store_all_cons, IH by done.
  by apply lookup_insert_ne.
Qed.

Lemma store_all_last (l1 l2 : list topic_record) (r : topic_record) (ht : gmap Z topic) :
  rec_order r ∉ rec_order <$> l2 →
  store_all note_colors dir_grid (l1 ++ r :: l2) ht !! rec_order r
  = Some (stored note_colors dir_grid r).
Proof.
  intros Hlast.
  replace (store_all note_colors dir_grid (l1 ++ r :: l2) ht)
    with (store_all note_colors dir_grid (r :: l2) (store_all note_colors dir_grid l1 ht))
    by (symmetry; apply fold_left_app).
  rewrite store_all_cons, store_all_other by done.
  apply lookup_insert_eq.
Qed.

Lemma store_all_size (rs : list topic_record) (ht : gmap Z topic) :
  NoDup (rec_order <$> rs) →
  (∀ r, r ∈ rs → ht !! rec_order r = None) →
  size (store_all note_colors dir_grid rs ht) = (size ht + length rs)%nat.
Proof.
  revert ht. induction rs as [|r rs IH]; intros ht Hnd Hfresh; [cbn; lia |].
  rewrite fmap_cons in Hnd. apply NoDup_cons in Hnd as [Hr Hnd].
  rewrite store_all_cons, IH; [| done |].
  - rewrite map_size_insert_None by (apply Hfresh; left). cbn [length]. lia.
  - intros r' Hr'. rewrite lookup_insert_ne; [apply Hfresh; by right |].
    intros Heq. apply Hr. rewrite Heq. by apply list_elem_of_fmap_2.
Qed.

Lemma store_all_distinct (rs : list topic_record) (ht : gmap Z topic) (r : topic_record) :
  NoDup (rec_order <$> rs) → r ∈ rs →
  store_all note_colors dir_grid rs ht !! rec_order r = Some (stored note_colors dir_grid r).
Proof.
  intros Hnd Hr. apply list_elem_of_split in Hr as (l1 & l2 & ->).
  apply store_all_last.
  rewrite fmap_app, fmap_cons in Hnd.
  apply NoDup_app in Hnd as (_ & _ & Hnd). by apply NoDup_cons in Hnd as [? _].
Qed.

(** The order under which a record is stored is its [order] member. *)
Lemma load_record_order (jo : JsonObject) (order : Z) (t : topic) :
  load_record note_colors dir_grid jo = Ok (order, t) → jo !! "order" = Some (JInt order).
Proof.
  unfold load_record, get_int.
  repeat (case_match; try done). intros [= <- _]. congruence.
Qed.

(** Loading changes the catalog at the orders of the records only. *)
Lemma load_records_frame (h : help) (jos : list JsonObject) (k : Z) :
  (∀ jo, jo ∈ jos → jo !! "order" ≠ Some (JInt k)) →
  help_texts (load_records note_colors dir_grid h jos).1 !! k = help_texts h !! k.
Proof.
  revert h. induction jos as [|jo jos IH]; intros h Hk; [done |].
  cbn [load_records].
  destruct (load_record note_colors dir_grid jo) as [[order t]|e] eqn:Hjo; [| done].
  rewrite IH by (intros jo' Hjo'; apply Hk; by right).
  cbn [help_texts]. apply lookup_insert_ne.
  intros ->. apply (Hk jo); [by left | by eapply load_record_order].
Qed.

(** Records whose orders are their positions have pairwise distinct orders. *)
Lemma orders_at_positions (rs : list topic_record) :
  (∀ (i : nat) r, rs !! i = Some r → rec_order r = Z.of_nat i) →
  NoDup (rec_order <$> rs).
Proof.
  intros Hpos. apply NoDup_alt. intros i j k Hi Hj.
  rewrite list_lookup_fmap in Hi, Hj.
  destruct (rs !! i) as [ri|] eqn:Hri; [| done].
  destruct (rs !! j) as [rj|] eqn:Hrj; [| done].
  cbn in Hi, Hj. injection Hi as Hi. injection Hj as Hj.
  rewrite (Hpos _ _ Hri) in Hi. rewrite (Hpos _ _ Hrj) in Hj. lia.
Qed.

End Load.

(** C2, as amended: a record that lacks [type], [name] or [order] makes the
    load fail with the data error, and so does one that lacks [messages]
    when [JsonObject::read] raises on an absent member; the load stops at
    that record, and the catalog keeps what the records before it stored. *)
Theorem missing_field_stops_load `{E : Externals} (h : help)
  (pre post : list JsonObject) (jo : JsonObject) :
  jo !! "type" = None ∨ jo !! "name" = None ∨ jo !! "order" = None
  ∨ (read_absent_throws = true ∧ jo !! "messages" = None) →
  deserialize h (pre ++ jo :: post) = ((deserialize h pre).1, Some DataError).
Proof.
  intros Hmiss. unfold deserialize. rewrite load_records_app.
  destruct (load_records _ _ _ pre) as [h' [[]|]]; [done |].
  cbn [load_records fst]. by rewrite load_record_missing.
Qed.

Lemma missing_field_stops_load_sample :
  @deserialize sample single_instance
    ([record "Movement" 0 ["a"]] ++ delete "name" (record "Items" 1 []) :: [])
  = ((@deserialize sample single_instance [record "Movement" 0 ["a"]]).1, Some DataError).
Proof.
  apply (@missing_field_stops_load sample single_instance
           [record "Movement" 0 ["a"]] [] (delete "name" (record "Items" 1 []))).
  right; left. vm_compute. reflexivity.
Defined.

(** C2 as stated fails: the second record has no [name], the load fails,
    and the catalog holds the topic of the first record all the same. *)
Lemma failed_load_keeps_earlier_topics :
  (@deserialize sample single_instance
     [record "Movement" 0 ["a"]; delete "name" (record "Items" 1 [])]).2
  = Some DataError
  ∧ help_texts
      (@deserialize sample single_instance
         [record "Movement" 0 ["a"]; delete "name" (record "Items" 1 [])]).1 !! 0
    = Some ("Movement", ["a"])
  ∧ help_texts
      (@deserialize sample single_instance
         [record "Movement" 0 ["a"]; delete "name" (record "Items" 1 [])]).1
    ≠ help_texts single_instance.
Proof.
  split; [by vm_compute | split; [by vm_compute |]].
  intros Heq. apply (f_equal (λ m : gmap Z topic, m !! 0)) in Heq.
  vm_compute in Heq. discriminate.
Qed.

(** With a [read] that only reports an absent member through the value it
    returns, a record without [messages] loads as a topic without
    paragraphs; with a [read] that raises, the load fails. *)
Example record_without_messages :
  @deserialize sample single_instance [delete "messages" (record "Items" 1 ["x"])]
  = (Help {[1 := ("Items", [])]} [["I"]], None)
  ∧ (@deserialize sample_strict single_instance
       [delete "messages" (record "Items" 1 ["x"])]).2 = Some DataError.
Proof. split; by vm_compute. Qed.

(** C4: loading well-formed records into the catalog of a fresh instance
    succeeds; with pairwise distinct orders there are as many topics as
    records and each is found under its order; in general the record that
    comes last among those of an order is the one found under it. *)
Theorem load_well_formed_catalog `{E : Externals}
  (jos : list JsonObject) (rs : list topic_record) :
  Forall2 well_formed jos rs →
  let loaded := deserialize single_instance jos in
  loaded.2 = None
  ∧ (NoDup (rec_order <$> rs) →
     size (help_texts loaded.1) = length rs
     ∧ ∀ r, r ∈ rs →
         help_texts loaded.1 !! rec_order r = Some (stored get_note_colors get_dir_grid r))
  ∧ (∀ l1 r l2, rs = l1 ++ r :: l2 → rec_order r ∉ rec_order <$> l2 →
       help_texts loaded.1 !! rec_order r = Some (stored get_note_colors get_dir_grid r)).
Proof.
  intros Hwf loaded. subst loaded. unfold deserialize.
  rewrite (load_records_well_formed _ _ _ _ _ Hwf). cbn [fst snd help_texts].
  split; [done |]. split.
  - intros Hnd. split.
    + rewrite store_all_size by done. apply Nat.add_0_l.
    + intros r Hr. by apply store_all_distinct.
  - intros l1 r l2 -> Hlast. by apply store_all_last.
Qed.

Lemma load_well_formed_catalog_sample :
  let loaded :=
    @deserialize sample single_instance
      [record "Movement" 0 ["<GAME_DIRECTORIES>"]; record "Items" 1 []] in
  loaded.2 = None
  ∧ (NoDup (rec_order <$> [TopicRecord "Movement" 0 ["<GAME_DIRECTORIES>"];
                           TopicRecord "Items" 1 []]) →
     size (help_texts loaded.1) = 2%nat
     ∧ ∀ r, r ∈ [TopicRecord "Movement" 0 ["<GAME_DIRECTORIES>"]; TopicRecord "Items" 1 []] →
         help_texts loaded.1 !! rec_order r
         = Some (@stored sample (@get_note_colors sample) (@get_dir_grid sample) r))
  ∧ (∀ l1 r l2,
       [TopicRecord "Movement" 0 ["<GAME_DIRECTORIES>"]; TopicRecord "Items" 1 []]
       = l1 ++ r :: l2 →
       rec_order r ∉ rec_order <$> l2 →
       help_texts loaded.1 !! rec_order r
       = Some (@stored sample (@get_note_colors sample) (@get_dir_grid sample) r)).
Proof.
  apply (@load_well_formed_catalog sample
           [record "Movement" 0 ["<GAME_DIRECTORIES>"]; record "Items" 1 []]
           [TopicRecord "Movement" 0 ["<GAME_DIRECTORIES>"]; TopicRecord "Items" 1 []]).
  repeat constructor; try (by vm_compute); by exists "help".
Defined.

(** Two records of one order: the later one is what the catalog holds. *)
Example last_record_of_an_order_wins :
  help_texts
    (@deserialize sample single_instance
       [record "Movement" 0 ["a"]; record "Items" 0 ["b"]]).1
  = {[0 := ("Items", ["b"])]}.
Proof. by vm_compute. Qed.

(** C10: [deserialize] builds [hotkeys] anew from the records, and changes
    the catalog at the orders of the records only, so a topic of an earlier
    load whose order the new data does not have stays; the indices of
    [hotkeys] and the orders of the catalog agree after a first load of
    records whose orders are their positions, and they need not agree after
    a first load with other distinct orders, nor after a reload. *)
Theorem reload_keeps_stale_topics `{E : Externals} :
  (∀ h jos rs, Forall2 well_formed jos rs →
     hotkeys (deserialize h jos).1 = (λ r, get_hotkeys (rec_name r)) <$> rs)
  ∧ (∀ h jos k, (∀ jo, jo ∈ jos → jo !! "order" ≠ Some (JInt k)) →
       help_texts (deserialize h jos).1 !! k = help_texts h !! k)
  ∧ (∀ jos rs, Forall2 well_formed jos rs →
       (∀ (i : nat) r, rs !! i = Some r → rec_order r = Z.of_nat i) →
       aligned (deserialize single_instance jos).1)
  ∧ ¬ @aligned sample
        (@deserialize sample single_instance [record "Items" 1 []; record "Movement" 0 []]).1
  ∧ ¬ @aligned sample
        (@deserialize sample
           (@deserialize sample single_instance
              [record "Movement" 0 []; record "Items" 1 []]).1
           [record "Crafting" 0 []]).1.
Proof.
  split; [| split; [| split; [| split]]].
  - intros h jos rs Hwf. unfold deserialize.
    by rewrite (load_records_well_formed _ _ _ _ _ Hwf).
  - intros h jos k Hk. unfold deserialize. by rewrite load_records_frame.
  - intros jos rs Hwf Hpos. unfold deserialize.
    rewrite (load_records_well_formed _ _ _ _ _ Hwf). cbn [fst help_texts hotkeys app].
    pose proof (orders_at_positions _ Hpos) as Hnd.
    split; cbn [help_texts hotkeys].
    + rewrite length_fmap, store_all_size by done. symmetry. apply Nat.add_0_l.
    + intros i keys Hi. rewrite list_lookup_fmap in Hi.
      destruct (rs !! i) as [r|] eqn:Hr; [| done]. injection Hi as <-.
      exists (rec_name r), (expand_line get_note_colors get_dir_grid <$> rec_messages r).
      split; [| done]. rewrite <- (Hpos _ _ Hr).
      apply store_all_distinct; [done | by eapply list_elem_of_lookup_2].
  - intros [_ Hal]. destruct (Hal 0%nat ["I"]) as (name & messages & Hl & Hk); [done |].
    vm_compute in Hl. injection Hl as <- _. vm_compute in Hk. discriminate.
  - intros [Hlen _]. vm_compute in Hlen. discriminate.
Qed.

Lemma reload_keeps_stale_topics_sample :
  help_texts
    (@deserialize sample
       (@deserialize sample single_instance
          [record "Movement" 0 []; record "Items" 1 []]).1
       [record "Crafting" 0 []]).1 !! 1
  = help_texts
      (@deserialize sample single_instance
         [record "Movement" 0 []; record "Items" 1 []]).1 !! 1.
Proof.
  apply (proj1 (proj2 (@reload_keeps_stale_topics sample))).
  intros jo Hjo. apply list_elem_of_singleton in Hjo as ->. by vm_compute.
Defined.

(** ** The detail viewer *)

(** The text that replaces a token always carries the colour tags. *)
Lemma replace_not_empty (desc : string) :
  String.eqb ("<color_light_blue>" +:+ desc +:+ "</color>") "" = false.
Proof. reflexivity. Qed.

(** The loop of [expand_press] never writes to the debug log. *)
Lemma expand_press_log `{E : Externals} (fuel : nat) (line_proc : string) (pos : Z)
  (log : list string) :
  from_option snd log (expand_press fuel line_proc pos log) = log.
Proof.
  revert line_proc pos log. induction fuel as [|fuel IH]; intros line_proc pos log; [done |].
  cbn [expand_press]. destruct (pos =? npos); [done |].
  rewrite replace_not_empty. apply IH.
Qed.

(** C3 (the code departs from it): no line makes the expansion of the
    [<press_ACTION>] tokens report anything, for the text that replaces a
    token is never empty; a token whose action has no description becomes
    an empty pair of colour tags, and nothing is written to the debug
    log. *)
Theorem unknown_action_not_reported :
  (∀ (E : Externals) fuel line,
     from_option snd [] (resolve_line fuel line) = [])
  ∧ (∀ n, @resolve_line sample (2 + n) "<press_UNKNOWN_ACTION>"
          = Some ("<color_light_blue></color>", [])).
Proof.
  split.
  - intros E fuel line. apply expand_press_log.
  - intros n. by vm_compute.
Qed.

(** C7 (the code departs from it): after a token has been replaced, the
    scan goes on from the index that the end of the token had before the
    replacement. Here the replacement is shorter than the token, the next
    token starts before that index, and it is left as it is. Tokens that the
    scan does reach are replaced at all their occurrences. *)
Theorem token_after_long_token_skipped :
  (∀ n, @resolve_line sample (2 + n) "<press_toggle_auto_pulp_butcher><press_open>"
        = Some ("<color_light_blue>k</color><press_open>", []))
  ∧ (∀ n, @resolve_line sample (3 + n) "<press_open> or <press_open>, <press_none>"
          = Some ("<color_light_blue>o</color> or <color_light_blue>o</color>, "
                  +:+ "<color_light_blue></color>", [])).
Proof. split; intros n; by vm_compute. Qed.

Lemma resolve_lines_length `{E : Externals} (fuel : nat) (lines resolved : list string)
  (log : list string) :
  resolve_lines fuel lines = Some (resolved, log) → length resolved = length lines.
Proof.
  revert resolved log. induction lines as [|line lines IH]; intros resolved log.
  - by intros [= <- _].
  - cbn [resolve_lines]. destruct (resolve_line fuel line) as [[l log1]|]; [| done].
    cbn. destruct (resolve_lines fuel lines) as [[more log2]|]; [| done].
    cbn. intros [= <- _]. cbn. f_equal. by eapply IH.
Qed.

Lemma concat_app_head (sep a b : string) (rest : list string) :
  String.concat sep ((a +:+ b) :: rest) = a +:+ String.concat sep (b :: rest).
Proof.
  destruct rest as [|c rest]; [done |].
  cbn [String.concat]. apply string_app_assoc.
Qed.

(** [std::accumulate] with [lhs + sep + rhs] joins with the separator. *)
Lemma accumulate_sep_concat (sep front : string) (rest : list string) :
  accumulate_sep sep rest front = String.concat sep (front :: rest).
Proof.
  unfold accumulate_sep. revert front.
  induction rest as [|r rest IH]; intros front; [done |].
  cbn [fold_left]. rewrite IH, string_app_assoc, concat_app_head.
  by rewrite concat_app_head.
Qed.

(** Once a topic has been selected, [action] is [CONFIRM] at the end of the
    loop over the hotkeys. *)
Lemma scan_hotkeys_confirm `{E : Externals} (fuel : nat) (sInput : string) (i : nat)
  (hks : list (list string)) (st st' : screen) (action : string) :
  scan_hotkeys fuel sInput i hks st "CONFIRM" = Some (st', action) → action = "CONFIRM".
Proof.
  revert i st. induction hks as [|keys hks IH]; intros i st.
  - by intros [= _ <-].
  - cbn [scan_hotkeys]. destruct (existsb _ keys); [| apply IH].
    destruct (select_topic fuel i st) as [st1|]; [apply IH | done].
Qed.

(** A turn in which the input is a hotkey of some topic ends with [action]
    being [CONFIRM]. *)
Lemma scan_hotkeys_selected `{E : Externals} (fuel : nat) (sInput : string) (i : nat)
  (hks : list (list string)) (st st' : screen) (action action' : string) :
  (∃ keys, keys ∈ hks ∧ existsb (String.eqb sInput) keys = true) →
  scan_hotkeys fuel sInput i hks st action = Some (st', action') → action' = "CONFIRM".
Proof.
  revert i st action. induction hks as [|keys hks IH]; intros i st action (ks & Hin & Hks).
  - by apply elem_of_nil in Hin.
  - cbn [scan_hotkeys]. destruct (existsb (String.eqb sInput) keys) eqn:Hkeys.
    + destruct (select_topic fuel i st) as [st1|]; [| done].
      apply scan_hotkeys_confirm.
    + apply IH. exists ks. split; [| done].
      apply elem_of_cons in Hin as [-> | Hin]; [congruence | done].
Qed.

(** C9: the resolved paragraphs of the selected topic are joined with two
    line feeds between them and shown as one document; when there is no
    paragraph no document is shown; and after a turn in which a topic was
    selected the loop of the menu goes on to the next input. *)
Theorem selected_topic_document `{E : Externals} :
  (∀ fuel i st resolved log,
     resolve_lines fuel (index_topic (catalog st) (to_int (Z.of_nat i))).2.2
     = Some (resolved, log) →
     ∃ st', select_topic fuel i st = Some st'
       ∧ menus st' = menus st
       ∧ popups st' =
           popups st ++ match resolved with
                        | [] => []
                        | _ :: _ => [String.concat (nl +:+ nl) resolved]
                        end)
  ∧ (∀ fuel i st,
       (index_topic (catalog st) (to_int (Z.of_nat i))).2.2 = [] →
       ∃ st', select_topic fuel i st = Some st'
         ∧ menus st' = menus st ∧ popups st' = popups st)
  ∧ (∀ fuel hks action sInput later st ht menu st' action',
       draw_menu fuel (catalog st) = Some (ht, menu) →
       scan_hotkeys fuel sInput 0 hks
         (Screen ht (menus st ++ [menu]) (popups st) (debug_log st)) action
       = Some (st', action') →
       (∃ keys, keys ∈ hks ∧ existsb (String.eqb sInput) keys = true) →
       display_help fuel hks ((action, sInput) :: later) st
       = display_help fuel hks later st').
Proof.
  split; [| split].
  - intros fuel i st resolved log Hres. unfold select_topic.
    destruct (index_topic _ _) as [ht t]. cbn [snd] in Hres. rewrite Hres. cbn.
    eexists. split; [done |]. cbn [menus popups]. split; [done |].
    f_equal. destruct resolved as [|front rest]; [done |].
    cbn. by rewrite accumulate_sep_concat.
  - intros fuel i st Hnone. unfold select_topic.
    destruct (index_topic _ _) as [ht t]. cbn [snd] in Hnone. rewrite Hnone. cbn.
    eexists. split; [done |]. cbn [menus popups]. by rewrite List.app_nil_r.
  - intros fuel hks action sInput later st ht menu st' action' Hdraw Hscan Hkey.
    cbn [display_help]. rewrite Hdraw. cbn. rewrite Hscan. cbn.
    by rewrite (scan_hotkeys_selected _ _ _ _ _ _ _ _ Hkey Hscan).
Qed.

Lemma selected_topic_document_sample :
  ∃ st', @select_topic sample 5 0 (Screen sample_catalog [] [] []) = Some st'
    ∧ menus st' = []
    ∧ popups st' =
        [String.concat (nl +:+ nl)
           ["Press <color_light_blue>o</color>."; "Second paragraph."]].
Proof.
  apply (proj1 (@selected_topic_document sample) 5%nat 0%nat
           (Screen sample_catalog [] [] [])
           ["Press <color_light_blue>o</color>."; "Second paragraph."] []).
  by vm_compute.
Defined.

(** Selecting the topic without paragraphs shows nothing, and the next
    input is read: here it is the hotkey of the other topic. *)
Example empty_topic_then_next :
  popups <$> @display_help sample 5 [["M"]; ["I"]]
               [("ANY_INPUT", "I"); ("ANY_INPUT", "M"); ("QUIT", "q")]
               (Screen sample_catalog [] [] [])
  = Some ["Press <color_light_blue>o</color>." +:+ nl +:+ nl +:+ "Second paragraph."].
Proof. by vm_compute. Qed.

(** ** The diagram of the directions *)

Lemma prefix_cons (c k : ascii) (t x : string) :
  String.prefix (String c t) (String k x)
  = if ascii_dec c k then String.prefix t x else false.
Proof. reflexivity. Qed.

Lemma prefix_nil (s : string) : String.prefix "" s = true.
Proof. by destruct s. Qed.

(** A token at the head of [p +:+ rest] lies within [p] or runs over it. *)
Lemma prefix_app_cases (t p rest : string) :
  String.prefix t (p +:+ rest) = true →
  String.prefix t p = true ∨ String.prefix p t = true.
Proof.
  revert p. induction t as [|a t IH]; intros p.
  - intros _. left. apply prefix_nil.
  - destruct p as [|b p]; [intros _; by right |].
    rewrite string_app_cons, !prefix_cons.
    destruct (ascii_dec a b) as [->|]; [| done].
    destruct (ascii_dec b b); [| done]. apply IH.
Qed.

Lemma no_clash_inert (t p : string) : no_clash t p = true → inert t p.
Proof.
  intros Hclear after rest. induction p as [|c p IH]; [done |].
  cbn [no_clash] in Hclear.
  apply andb_prop in Hclear as [Hhere Hclear].
  apply andb_prop in Hhere as [Ht Hp].
  rewrite string_app_cons. cbn [replace_from].
  destruct (String.prefix t (String c (p +:+ rest))) eqn:Hpre.
  - change (String c (p +:+ rest)) with (String c p +:+ rest) in Hpre.
    apply prefix_app_cases in Hpre as [Hpre|Hpre]; rewrite Hpre in *; done.
  - by rewrite IH.
Qed.

Lemma inert_app (t p q : string) : inert t p → inert t q → inert t (p +:+ q).
Proof.
  intros Hp Hq after rest. by rewrite !string_app_assoc, Hp, Hq.
Qed.

(** A character that the token does not start with is passed over. *)
Lemma inert_cons (t q : string) (k : ascii) :
  (∀ rest, String.prefix t (String k (q +:+ rest)) = false) →
  inert t q → inert t (String k q).
Proof.
  intros Hk Hq after rest. rewrite string_app_cons. cbn [replace_from].
  by rewrite Hk, Hq.
Qed.

Lemma slot_text_cases (keys : list ascii) (i : nat) :
  slot_text keys i = "<color_red>?</color>"
  ∨ ∃ k, slot_text keys i = "<color_light_blue>" +:+ String k "</color>".
Proof.
  unfold slot_text. destruct (i <? length keys)%nat; [right | by left].
  by exists (nth i keys "000"%char).
Qed.

(** What a slot has been filled with is left alone when the slots that
    follow are filled. *)
Lemma slot_text_inert (dir : action_id) (i : nat) (keys : list ascii) (i' : nat) :
  (i < 2)%nat → inert (slot_token dir i) (slot_text keys i').
Proof.
  intros Hi.
  destruct (slot_text_cases keys i') as [-> | [k ->]].
  - apply no_clash_inert.
    destruct dir, i as [|[|]]; try lia; by vm_compute.
  - apply inert_app; [apply no_clash_inert | apply inert_cons].
    + destruct dir, i as [|[|]]; try lia; by vm_compute.
    + intros rest.
      assert (slot_token dir i = String "<" (action_ident dir +:+ slot_suffix i)) as ->
        by done.
      rewrite prefix_cons. destruct (ascii_dec "<" k); [| done].
      destruct dir, i as [|[|]]; try lia; by vm_compute.
    + apply no_clash_inert.
      destruct dir, i as [|[|]]; try lia; by vm_compute.
Qed.

Lemma slot_token_not_empty (dir : action_id) (i : nat) : slot_token dir i ≠ EmptyString.
Proof. done. Qed.

Lemma render_cons (slot : action_id → nat → string) (seg : segment) (segs : list segment) :
  render slot (seg :: segs) = piece slot seg +:+ render slot segs.
Proof. reflexivity. Qed.

Lemma filled_old (keys : action_id → list ascii) (slots : list (action_id * nat))
  (dir dir' : action_id) (i i' : nat) :
  (dir', i') ≠ (dir, i) →
  filled keys ((dir, i) :: slots) dir' i' = filled keys slots dir' i'.
Proof.
  intros Hne. unfold filled.
  destruct (bool_decide_reflect ((dir', i') ∈ (dir, i) :: slots)) as [Hin|Hout];
    destruct (bool_decide_reflect ((dir', i') ∈ slots)) as [Hin'|Hout']; try done.
  - by apply elem_of_cons in Hin as [?|?].
  - exfalso. apply Hout. by right.
Qed.

(** Filling one slot of the diagram: the token of the slot is replaced, and
    every other piece stays as it is. *)
Lemma fill_pieces (keys : action_id → list ascii) (slots : list (action_id * nat))
  (dir : action_id) (i : nat) (segs : list segment) :
  (i < 2)%nat → (dir, i) ∉ slots → pieces_clear dir i segs = true →
  replace_from (slot_token dir i) (slot_text (keys dir) i) 0 (render (filled keys slots) segs)
  = render (filled keys ((dir, i) :: slots)) segs.
Proof.
  intros Hi Hnew. induction segs as [|seg segs IH]; [done |].
  intros Hclear. apply andb_prop in Hclear as [Hseg Hclear].
  rewrite !render_cons. destruct seg as [s|dir' i']; cbn [piece].
  - rewrite (no_clash_inert _ _ Hseg). by rewrite IH.
  - destruct (decide ((dir', i') = (dir, i))) as [[= -> ->]|Hne].
    + assert (filled keys slots dir i = slot_token dir i) as ->
        by (unfold filled; by rewrite bool_decide_eq_false_2).
      assert (filled keys ((dir, i) :: slots) dir i = slot_text (keys dir) i) as ->
        by (unfold filled; rewrite bool_decide_eq_true_2; [done | by left]).
      rewrite replace_from_token by apply slot_token_not_empty. by rewrite IH.
    + rewrite filled_old by done.
      rewrite bool_decide_eq_false_2 in Hseg by done. cbn [orb] in Hseg.
      unfold filled at 1 3.
      destruct (bool_decide ((dir', i') ∈ slots)).
      * rewrite (slot_text_inert dir i _ _ Hi). by rewrite IH.
      * rewrite (no_clash_inert _ _ Hseg). by rewrite IH.
Qed.

Lemma render_ext (f g : action_id → nat → string) (segs : list segment) :
  (∀ dir i, Slot dir i ∈ segs → f dir i = g dir i) → render f segs = render g segs.
Proof.
  induction segs as [|seg segs IH]; intros Hfg; [done |].
  rewrite !render_cons. rewrite IH by (intros dir i Hin; apply Hfg; by right).
  destruct seg as [s|dir i]; [done |]. cbn [piece]. rewrite Hfg; [done | by left].
Qed.

Lemma slot_text_spec (keys : list ascii) (i : nat) : slot_text keys i = slot_spec keys i.
Proof.
  unfold slot_text, slot_spec. rewrite nth_lookup.
  destruct (Nat.ltb_spec i (length keys)) as [Hlt|Hge].
  - apply lookup_lt_is_Some in Hlt as [k ->]. done.
  - by rewrite lookup_ge_None_2.
Qed.

(** The slots of the diagram are those that [get_dir_grid] fills. *)
Lemma diagram_slots (dir : action_id) (i : nat) :
  Slot dir i ∈ diagram → (dir, i) ∈ all_slots.
Proof.
  intros Hin. unfold diagram in Hin.
  repeat (apply elem_of_cons in Hin as [Hin|Hin];
          [try discriminate Hin; injection Hin as -> ->;
           apply (bool_decide_unpack _); vm_compute; exact I |]).
  by apply elem_of_nil in Hin.
Qed.

(** Filling the slots of [todo] one after the other. *)
Lemma fill_slots `{E : Externals} (todo slots : list (action_id * nat)) :
  NoDup (todo ++ slots) →
  forallb (λ p, (p.2 <? 2)%nat && pieces_clear p.1 p.2 diagram) todo = true →
  fold_left (λ movement p, fill_slot p.1 movement p.2) todo
    (render (filled keys_bound_to slots) diagram)
  = render (filled keys_bound_to (rev todo ++ slots)) diagram.
Proof.
  revert slots. induction todo as [|[dir i] todo IH]; intros slots Hnd Hok; [done |].
  cbn [forallb fst snd] in Hok.
  apply andb_prop in Hok as [Hhere Hok]. apply andb_prop in Hhere as [Hi Hclear].
  apply Nat.ltb_lt in Hi.
  cbn [app] in Hnd. apply NoDup_cons in Hnd as [Hnew Hnd].
  cbn [fold_left fst snd]. unfold fill_slot at 2, replace_all.
  rewrite (proj2 (String.eqb_neq _ _) (slot_token_not_empty dir i)).
  rewrite fill_pieces; [| done | | done].
  - rewrite IH; [| | done].
    + cbn [rev]. by rewrite <- List.app_assoc.
    + apply NoDup_app in Hnd as (Hn1 & Hn2 & Hn3).
      apply NoDup_app. split; [done |]. split; [| by apply NoDup_cons; split;
        [intros Hin; apply Hnew, elem_of_app; by right | done]].
      intros p Hp Hps. apply elem_of_cons in Hps as [-> | Hps].
      * apply Hnew, elem_of_app. by left.
      * by eapply Hn2.
  - intros Hin. apply Hnew, elem_of_app. by right.
Qed.

Lemma template_pieces (keys : action_id → list ascii) :
  movement_template = render (filled keys []) diagram.
Proof. vm_compute. reflexivity. Qed.

(** The two nested loops of [get_dir_grid] fill the slots of [all_slots]. *)
Lemma dir_grid_fold `{E : Externals} :
  get_dir_grid
  = fold_left (λ movement p, fill_slot p.1 movement p.2) all_slots movement_template.
Proof.
  unfold get_dir_grid, all_slots. generalize movement_template.
  induction movearray as [|dir dirs IH]; intros movement; [done |].
  cbn [fold_left]. rewrite IH. rewrite bind_cons, fold_left_app. reflexivity.
Qed.

Lemma all_slots_distinct : NoDup all_slots.
Proof. apply (bool_decide_unpack _). vm_compute. exact I. Qed.

Lemma all_slots_clear :
  forallb (λ p, (p.2 <? 2)%nat && pieces_clear p.1 p.2 diagram) all_slots = true.
Proof. vm_compute. reflexivity. Qed.

Lemma diagram_template : render slot_token diagram = movement_template.
Proof. vm_compute. reflexivity. Qed.

Lemma diagram_has_slot (dir : action_id) (i : nat) : (i < 2)%nat → Slot dir i ∈ diagram.
Proof.
  intros Hi.
  destruct dir, i as [|[|]]; try lia;
    apply (bool_decide_unpack _); vm_compute; exact I.
Qed.

(** C6: the diagram that [get_dir_grid] gives is the template with every
    slot filled as the specification says: slot [i] of a direction holds the
    [i]-th key bound to the direction, in light blue, when the direction has
    more than [i] keys, and a red question mark otherwise. The slots are the
    two of each of the nine directions. *)
Theorem dir_grid_slots `{E : Externals} :
  get_dir_grid = render (λ dir i, slot_spec (keys_bound_to dir) i) diagram
  ∧ render slot_token diagram = movement_template
  ∧ ∀ dir i, (i < 2)%nat → Slot dir i ∈ diagram.
Proof.
  split; [| split; [exact diagram_template | exact diagram_has_slot]].
  rewrite dir_grid_fold, (template_pieces keys_bound_to).
  rewrite fill_slots.
  - apply render_ext. intros dir i Hin. unfold filled.
    rewrite bool_decide_eq_true_2; [apply slot_text_spec |].
    apply elem_of_app. left. apply list_elem_of_In, in_rev, list_elem_of_In.
    by apply diagram_slots.
  - rewrite List.app_nil_r. exact all_slots_distinct.
  - exact all_slots_clear.
Qed.

(** The sample bindings: two keys to the left, one key up, none elsewhere. *)
Example dir_grid_sample :
  @get_dir_grid sample
  = "<color_red>?</color>  <color_light_blue>k</color>  <color_red>?</color>   "
    +:+ "<color_red>?</color>  <color_red>?</color>  <color_red>?</color>" +:+ nl
    +:+ " \ | /     \ | /" +:+ nl
    +:+ "  \|/       \|/" +:+ nl
    +:+ "<color_light_blue>h</color>--<color_red>?</color>--<color_red>?</color>   "
    +:+ "<color_light_blue>4</color>--<color_red>?</color>--<color_red>?</color>" +:+ nl
    +:+ "  /|\       /|\" +:+ nl
    +:+ " / | \     / | \" +:+ nl
    +:+ "<color_red>?</color>  <color_red>?</color>  <color_red>?</color>   "
    +:+ "<color_red>?</color>  <color_red>?</color>  <color_red>?</color>".
Proof. vm_compute. reflexivity. Qed.

(** ** The menu *)

Lemma to_int_small (z : Z) : 0 ≤ z < 2 ^ 31 → to_int z = z.
Proof. intros Hz. unfold to_int. rewrite Z.mod_small; lia. Qed.

Lemma index_topic_snd (ht : gmap Z topic) (k : Z) :
  (index_topic ht k).2 = default default_topic (ht !! k).
Proof. unfold index_topic. by destruct (ht !! k). Qed.

Lemma index_topic_lookup (ht : gmap Z topic) (k k' : Z) :
  (index_topic ht k).1 !! k' =
    match ht !! k' with
    | Some t => Some t
    | None => if decide (k' = k) then Some default_topic else None
    end.
Proof.
  unfold index_topic. destruct (ht !! k) as [t|] eqn:Hk; cbn [fst].
  - destruct (ht !! k') eqn:Hk'; [done |]. case_decide; [congruence | done].
  - rewrite lookup_insert. case_decide as Hkk'.
    + subst k'. rewrite Hk. by rewrite decide_True.
    + destruct (ht !! k'); [done |]. by rewrite decide_False by congruence.
Qed.

Lemma index_topic_keeps (ht : gmap Z topic) (k k' : Z) :
  is_Some (ht !! k') → is_Some ((index_topic ht k).1 !! k').
Proof. intros [t Ht]. rewrite index_topic_lookup, Ht. by eexists. Qed.

Lemma index_topic_has (ht : gmap Z topic) (k : Z) : is_Some ((index_topic ht k).1 !! k).
Proof.
  rewrite index_topic_lookup. destruct (ht !! k); [by eexists |].
  rewrite decide_True by done. by eexists.
Qed.

Lemma name_at_index_topic (ht : gmap Z topic) (k : Z) (j : nat) :
  name_at (index_topic ht k).1 j = name_at ht j.
Proof.
  unfold name_at. rewrite index_topic_lookup.
  destruct (ht !! Z.of_nat j); [done |]. by case_decide.
Qed.

Lemma labels_from_index_topic `{E : Externals} (ht : gmap Z topic) (k : Z) (i n : nat) :
  labels_from (index_topic ht k).1 i n = labels_from ht i n.
Proof.
  unfold labels_from. apply list_fmap_ext. intros _ j _.
  by rewrite name_at_index_topic.
Qed.

(** A map that has the keys below [i] and one more key has more than [i]
    keys. *)
Lemma size_above_prefix (ht : gmap Z topic) (i : nat) :
  (∀ j, (j < i)%nat → is_Some (ht !! Z.of_nat j)) →
  (∃ k, is_Some (ht !! k) ∧ (k < 0 ∨ Z.of_nat i ≤ k)) →
  (i < size ht)%nat.
Proof.
  revert ht. induction i as [|i IH]; intros ht Hlow (k & [t Hk] & Hout).
  - pose proof (map_size_ne_0_lookup_2 ht k ltac:(by eexists)). lia.
  - destruct (Hlow i) as [ti Hi]; [lia |].
    assert (i < size (delete (Z.of_nat i) ht))%nat as Hdel.
    { apply IH.
      - intros j Hj. rewrite lookup_delete_ne by lia. apply Hlow. lia.
      - exists k. rewrite lookup_delete_ne by lia. split; [by eexists | lia]. }
    rewrite map_size_delete_Some in Hdel by (by eexists).
    pose proof (map_size_ne_0_lookup_2 ht (Z.of_nat i) ltac:(by eexists)). lia.
Qed.

(** A map whose keys are those below [i] has [i] keys. *)
Lemma size_of_prefix (ht : gmap Z topic) (i : nat) :
  (∀ j, (j < i)%nat → is_Some (ht !! Z.of_nat j)) →
  (∀ k, is_Some (ht !! k) → 0 ≤ k < Z.of_nat i) →
  size ht = i.
Proof.
  revert ht. induction i as [|i IH]; intros ht Hlow Hkeys.
  - apply map_size_empty_iff, map_empty. intros k.
    destruct (ht !! k) eqn:Hk; [| done].
    specialize (Hkeys k ltac:(by eexists)). lia.
  - destruct (Hlow i) as [ti Hi]; [lia |].
    assert (size (delete (Z.of_nat i) ht) = i) as Hdel.
    { apply IH.
      - intros j Hj. rewrite lookup_delete_ne by lia. apply Hlow. lia.
      - intros k Hk. destruct (decide (k = Z.of_nat i)) as [->|Hne].
        + rewrite lookup_delete_eq in Hk. by destruct Hk.
        + rewrite lookup_delete_ne in Hk by done. specialize (Hkeys k Hk). lia. }
    rewrite map_size_delete_Some in Hdel by (by eexists).
    pose proof (map_size_ne_0_lookup_2 ht (Z.of_nat i) ltac:(by eexists)). lia.
Qed.

Lemma fill_gaps_lookup (ht : gmap Z topic) (i n : nat) (k : Z) :
  fill_gaps ht i n !! k =
    match ht !! k with
    | Some t => Some t
    | None =>
        if decide (Z.of_nat i ≤ k < Z.of_nat (i + n)) then Some default_topic else None
    end.
Proof.
  revert ht i. induction n as [|n IH]; intros ht i; cbn [fill_gaps].
  - destruct (ht !! k); [done |]. rewrite decide_False; [done | lia].
  - rewrite IH, index_topic_lookup. destruct (ht !! k); [done |].
    destruct (decide (k = Z.of_nat i)) as [->|Hne].
    + rewrite decide_True; [done | lia].
    + destruct (decide (Z.of_nat (S i) ≤ k < Z.of_nat (S i + n))).
      * rewrite decide_True; [done | lia].
      * rewrite decide_False; [done | lia].
Qed.

Section Menu.
Context `{E : Externals}.

(** With orders that are not negative the loop of [draw_menu] ends: it
    reads every index up to the largest order and prints one label each. *)
Lemma draw_menu_loop_ends (n fuel half_size i : nat) (y : Z) (ht : gmap Z topic)
  (sc : Z) (out : list shortcut) :
  (∀ j, (j < i)%nat → is_Some (ht !! Z.of_nat j)) →
  (∀ k, is_Some (ht !! k) → 0 ≤ k < Z.of_nat (i + n)) →
  (n = 0%nat ∨ is_Some (ht !! (Z.of_nat (i + n) - 1))) →
  Z.of_nat (i + n) ≤ 2 ^ 31 →
  (n < fuel)%nat →
  draw_menu_loop fuel half_size y i ht sc out
  = Some (fill_gaps ht i n, out ++ menu_rows half_size y (labels_from ht i n) i sc).
Proof.
  revert fuel i ht sc out.
  induction n as [|n IH]; intros fuel i ht sc out Hlow Hkeys Htop Hint Hfuel;
    (destruct fuel as [|fuel]; [lia |]); cbn [draw_menu_loop].
  - rewrite (size_of_prefix ht i) by (try done; intros k Hk; specialize (Hkeys k Hk); lia).
    rewrite Nat.ltb_irrefl. cbn. by rewrite List.app_nil_r.
  - destruct Htop as [|Htop]; [done |].
    assert (i < size ht)%nat as Hsize.
    { apply size_above_prefix; [done |]. eexists. split; [exact Htop | lia]. }
    apply Nat.ltb_lt in Hsize. rewrite Hsize.
    rewrite to_int_small by lia.
    pose proof (index_topic_snd ht (Z.of_nat i)) as Ht.
    destruct (index_topic ht (Z.of_nat i)) as [ht' t] eqn:Hidx.
    assert (ht' = (index_topic ht (Z.of_nat i)).1) as Hht' by (by rewrite Hidx).
    cbn [snd] in Ht. rewrite IH.
    + cbn [fill_gaps]. rewrite <- Hht'. f_equal. f_equal.
      rewrite <- List.app_assoc. f_equal.
      unfold labels_from at 2. cbn [seq fmap list_fmap]. cbn [menu_rows app].
      fold (labels_from ht (S i) n).
      rewrite Hht', labels_from_index_topic. unfold name_at. by rewrite Ht.
    + intros j Hj. rewrite Hht'. destruct (decide (j = i)) as [->|Hne].
      * apply index_topic_has.
      * apply index_topic_keeps, Hlow. lia.
    + intros k Hk. rewrite Hht', index_topic_lookup in Hk.
      destruct (ht !! k) eqn:Hhk.
      * specialize (Hkeys k ltac:(by eexists)). lia.
      * case_decide; [lia | by destruct Hk].
    + right. rewrite Hht'. apply index_topic_keeps.
      by replace (Z.of_nat (S i + n) - 1) with (Z.of_nat (i + S n) - 1) by lia.
    + lia.
    + lia.
Qed.

(** With a negative order the loop is still running after any number of
    turns that the index can count as an [int]. *)
Lemma draw_menu_loop_runs (fuel half_size i : nat) (y : Z) (ht : gmap Z topic)
  (sc : Z) (out : list shortcut) :
  (∀ j, (j < i)%nat → is_Some (ht !! Z.of_nat j)) →
  (∃ k, is_Some (ht !! k) ∧ k < 0) →
  Z.of_nat (i + fuel) ≤ 2 ^ 31 →
  draw_menu_loop fuel half_size y i ht sc out = None.
Proof.
  revert i ht sc out.
  induction fuel as [|fuel IH]; intros i ht sc out Hlow (k & Hk & Hneg) Hint; [done |].
  cbn [draw_menu_loop].
  assert (i < size ht)%nat as Hsize.
  { apply size_above_prefix; [done |]. exists k. split; [done | lia]. }
  apply Nat.ltb_lt in Hsize. rewrite Hsize. rewrite to_int_small by lia.
  destruct (index_topic ht (Z.of_nat i)) as [ht' t] eqn:Hidx.
  assert (ht' = (index_topic ht (Z.of_nat i)).1) as -> by (by rewrite Hidx).
  apply IH.
  - intros j Hj. destruct (decide (j = i)) as [->|Hne].
    + apply index_topic_has.
    + apply index_topic_keeps, Hlow. lia.
  - exists k. split; [by apply index_topic_keeps | done].
  - lia.
Qed.

End Menu.

Section Layout.
Context `{E : Externals}.

Lemma menu_rows_length (half_size : nat) (y : Z) (labels : list string) (i : nat) (sc : Z) :
  length (menu_rows half_size y labels i sc) = length labels.
Proof.
  revert i sc. induction labels as [|l labels IH]; intros i sc; [done |].
  cbn [menu_rows length]. by rewrite IH.
Qed.

(** The [j]-th call: the label, the row, and the column, which for the
    second column is what the labels of the first column have made it. *)
Lemma menu_rows_lookup (half_size : nat) (y : Z) (labels : list string) (i : nat)
  (sc : Z) (j : nat) (l : string) :
  labels !! j = Some l →
  menu_rows half_size y labels i sc !! j =
    Some (Shortcut
            (if (i + j <? half_size)%nat then 1
             else fold_left (λ sc cat_name, Z.max sc (utf8_width cat_name + 4))
                    (take (half_size - i) labels) sc)
            (to_int (y + Z.of_nat ((i + j) mod half_size))) l).
Proof.
  revert i sc j. induction labels as [|l0 labels IH]; intros i sc j Hj; [done |].
  destruct j as [|j]; cbn [menu_rows].
  - injection Hj as ->. cbn [lookup list_lookup]. rewrite Nat.add_0_r.
    destruct (Nat.ltb_spec i half_size) as [Hlt|Hge]; [done |].
    by replace (half_size - i)%nat with 0%nat by lia.
  - cbn [lookup list_lookup] in *. rewrite (IH _ _ _ Hj).
    replace (S i + j)%nat with (i + S j)%nat by lia. do 3 f_equal.
    destruct (Nat.ltb_spec i half_size) as [Hlt|Hge].
    + by replace (half_size - i)%nat with (S (half_size - S i)) by lia.
    + replace (half_size - i)%nat with 0%nat by lia.
      by replace (half_size - S i)%nat with 0%nat by lia.
Qed.

(** The offset of the second column is the largest of the half width and
    of the widths of the labels of the first column plus four. *)
Lemma second_column_max (first_column : list string) (sc0 : Z) :
  let sc := fold_left (λ sc cat_name, Z.max sc (utf8_width cat_name + 4)) first_column sc0 in
  sc0 ≤ sc
  ∧ (∀ l, l ∈ first_column → utf8_width l + 4 ≤ sc)
  ∧ (sc = sc0 ∨ ∃ l, l ∈ first_column ∧ sc = utf8_width l + 4).
Proof.
  revert sc0. induction first_column as [|l ls IH]; intros sc0; cbn [fold_left].
  - split; [lia |]. split; [| by left]. intros l Hl. by apply elem_of_nil in Hl.
  - destruct (IH (Z.max sc0 (utf8_width l + 4))) as (Hge & Hall & Hsome).
    cbn zeta in *. split; [lia |]. split.
    + intros l' Hl'. apply elem_of_cons in Hl' as [-> | Hl']; [lia | by apply Hall].
    + destruct Hsome as [Heq | (l' & Hl' & Heq)].
      * rewrite Heq.
        destruct (Z.max_spec sc0 (utf8_width l + 4)) as [[_ Hm]|[_ Hm]]; rewrite Hm.
        -- right. exists l. split; [by left | done].
        -- by left.
      * right. exists l'. split; [by right | done].
Qed.

Lemma labels_from_length (ht : gmap Z topic) (i n : nat) :
  length (labels_from ht i n) = n.
Proof. unfold labels_from. by rewrite length_fmap, length_seq. Qed.

Lemma labels_from_lookup (ht : gmap Z topic) (M j : nat) :
  (j < M)%nat → labels_from ht 0 M !! j = Some (translate (name_at ht j)).
Proof.
  intros Hj. unfold labels_from. rewrite list_lookup_fmap, lookup_seq_lt by done.
  done.
Qed.

(** What [draw_menu] does to a catalog whose orders are not negative. *)
Lemma draw_menu_ends (ht : gmap Z topic) (M fuel : nat) :
  orders_below ht M → (M < fuel)%nat →
  draw_menu fuel ht
  = Some (fill_gaps ht 0 M,
          menu_rows (size ht / 2 + 1) (heading_lines + 1) (labels_from ht 0 M) 0
            (divide_round_up menu_width 2)).
Proof.
  intros (Hkeys & Htop & Hint) Hfuel. unfold draw_menu.
  rewrite (draw_menu_loop_ends M); try done. intros j Hj. lia.
Qed.

End Layout.

(** C8: the labels at the indices below [C / 2 + 1], [C] being the number
    of topics, are printed in the first column, at x = 1, the others in the
    second column; the offset of the second column is the larger of half the
    width of the window (rounded up) and the largest width of a label of
    the first column plus four, so every label of the first column ends
    before the second column begins. *)
Theorem menu_two_columns `{E : Externals} (ht : gmap Z topic) (M fuel : nat) :
  orders_below ht M → (M < fuel)%nat →
  ∃ ht' out second_column,
    draw_menu fuel ht = Some (ht', out)
    ∧ length out = M
    ∧ (∀ j p, out !! j = Some p →
         label p = translate (name_at ht j)
         ∧ at_y p = to_int (heading_lines + 1 + Z.of_nat (j mod (size ht / 2 + 1)))
         ∧ ((j < size ht / 2 + 1)%nat → at_x p = 1 ∧ utf8_width (label p) + 4 ≤ second_column)
         ∧ ((size ht / 2 + 1 ≤ j)%nat → at_x p = second_column))
    ∧ divide_round_up menu_width 2 ≤ second_column
    ∧ (second_column = divide_round_up menu_width 2
       ∨ ∃ j, (j < size ht / 2 + 1)%nat ∧ (j < M)%nat
              ∧ second_column = utf8_width (translate (name_at ht j)) + 4).
Proof.
  intros Hord Hfuel.
  pose proof (draw_menu_ends ht M fuel Hord Hfuel) as Hdraw.
  remember (size ht / 2 + 1)%nat as half eqn:Hhalf.
  set (first := take half (labels_from ht 0 M)).
  destruct (second_column_max first (divide_round_up menu_width 2))
    as (Hge & Hall & Hsome). cbn zeta in *.
  eexists _, _, (second_column_for first).
  split; [exact Hdraw |].
  split; [by rewrite menu_rows_length, labels_from_length |].
  split; [| split; [exact Hge |]].
  - intros j p Hp.
    assert (j < M)%nat as Hj.
    { apply lookup_lt_Some in Hp.
      by rewrite menu_rows_length, labels_from_length in Hp. }
    rewrite (menu_rows_lookup _ _ _ _ _ _ _ (labels_from_lookup ht M j Hj)) in Hp.
    apply (inj Some) in Hp. subst p. cbn [label at_x at_y].
    rewrite Nat.sub_0_r, !Nat.add_0_l.
    fold first. split; [done |]. split; [done |]. split.
    + intros Hlt. apply Nat.ltb_lt in Hlt as Hlt'. rewrite Hlt'. split; [done |].
      apply Hall. apply (list_elem_of_lookup_2 _ j).
      unfold first. rewrite lookup_take_lt by done. by apply labels_from_lookup.
    + intros Hge'. apply Nat.ltb_ge in Hge'. by rewrite Hge'.
  - destruct Hsome as [Heq | (l & Hl & Heq)]; [by left | right].
    apply list_elem_of_lookup in Hl as [j Hj].
    assert (j < half)%nat as Hlt.
    { apply lookup_lt_Some in Hj. unfold first in Hj. rewrite length_take in Hj. lia. }
    unfold first in Hj. rewrite lookup_take_lt in Hj by done.
    assert (j < M)%nat as HM.
    { apply lookup_lt_Some in Hj. by rewrite labels_from_length in Hj. }
    rewrite labels_from_lookup in Hj by done. apply (inj Some) in Hj. subst l.
    by exists j.
Qed.

Lemma dense_catalog_orders : orders_below dense_catalog 3.
Proof.
  split; [| split; [right; vm_compute; by eexists | lia]].
  intros k Hk. apply elem_of_dom in Hk. unfold dense_catalog in Hk.
  rewrite !dom_insert_L, dom_singleton_L in Hk. set_unfold in Hk. lia.
Qed.

Lemma sparse_catalog_orders : orders_below sparse_catalog 5.
Proof.
  split; [| split; [right; vm_compute; by eexists | lia]].
  intros k Hk. apply elem_of_dom in Hk. unfold sparse_catalog in Hk.
  rewrite !dom_insert_L, dom_singleton_L in Hk. set_unfold in Hk. lia.
Qed.

(** A catalog whose orders are [0 .. C - 1] has [C] topics, and the menu
    has [C] entries. *)
Lemma orders_below_dense (ht : gmap Z topic) (C : nat) :
  (∀ k, is_Some (ht !! k) ↔ 0 ≤ k < Z.of_nat C) → Z.of_nat C ≤ 2 ^ 31 →
  orders_below ht C ∧ size ht = C.
Proof.
  intros Hdense Hint. split; [split; [| split; [| done]] |].
  - intros k Hk. by apply Hdense.
  - destruct C as [|C]; [by left | right]. apply Hdense. lia.
  - apply size_of_prefix.
    + intros j Hj. apply Hdense. lia.
    + intros k Hk. by apply Hdense.
Qed.

Lemma menu_two_columns_sample :
  ∃ ht' out second_column,
    @draw_menu sample 4 dense_catalog = Some (ht', out)
    ∧ length out = 3%nat
    ∧ (∀ j p, out !! j = Some p →
         label p = name_at dense_catalog j
         ∧ at_y p = to_int (2 + 1 + Z.of_nat (j mod (size dense_catalog / 2 + 1)))
         ∧ ((j < size dense_catalog / 2 + 1)%nat →
            at_x p = 1 ∧ Z.of_nat (String.length (label p)) + 4 ≤ second_column)
         ∧ ((size dense_catalog / 2 + 1 ≤ j)%nat → at_x p = second_column))
    ∧ divide_round_up 78 2 ≤ second_column
    ∧ (second_column = divide_round_up 78 2
       ∨ ∃ j, (j < size dense_catalog / 2 + 1)%nat ∧ (j < 3)%nat
              ∧ second_column = Z.of_nat (String.length (name_at dense_catalog j)) + 4).
Proof.
  apply (@menu_two_columns sample dense_catalog 3 4 dense_catalog_orders). lia.
Defined.

(** The menu of the three topics: two in the first column, one in the
    second, which starts at half the width of the window. *)
Example dense_menu :
  snd <$> @draw_menu sample 4 dense_catalog
  = Some [Shortcut 1 3 "<M>ovement"; Shortcut 1 4 "<I>tems"; Shortcut 39 3 "<C>rafting"].
Proof. by vm_compute. Qed.

(** C5, as amended: when no order is negative the menu is drawn, with or
    without gaps between the orders; every stored topic stays stored and
    its name is printed, in the row and column of the index that equals
    its order; every index without a topic below the largest order gets a
    default topic, which is put into the catalog and printed with the empty
    name. *)
Theorem menu_presents_topics `{E : Externals} (ht : gmap Z topic) (M fuel : nat) :
  orders_below ht M → (M < fuel)%nat →
  ∃ ht' out,
    draw_menu fuel ht = Some (ht', out)
    ∧ (∀ k t, ht !! k = Some t →
         ht' !! k = Some t
         ∧ ∃ p, out !! Z.to_nat k = Some p
             ∧ label p = translate t.1
             ∧ at_y p = to_int (heading_lines + 1
                                + Z.of_nat (Z.to_nat k mod (size ht / 2 + 1)))
             ∧ ((Z.to_nat k < size ht / 2 + 1)%nat → at_x p = 1))
    ∧ (∀ j, (j < M)%nat → ht !! Z.of_nat j = None →
         ht' !! Z.of_nat j = Some default_topic
         ∧ ∃ p, out !! j = Some p ∧ label p = translate "").
Proof.
  intros Hord Hfuel.
  pose proof (draw_menu_ends ht M fuel Hord Hfuel) as Hdraw.
  destruct Hord as (Hkeys & _ & _).
  remember (size ht / 2 + 1)%nat as half eqn:Hhalf.
  eexists _, _. split; [exact Hdraw |]. split.
  - intros k t Hk. rewrite fill_gaps_lookup, Hk. split; [done |].
    specialize (Hkeys k ltac:(by eexists)).
    assert (Z.to_nat k < M)%nat as Hj by lia.
    rewrite (menu_rows_lookup _ _ _ _ _ _ _ (labels_from_lookup ht M _ Hj)).
    eexists. split; [done |]. cbn [label at_x at_y]. rewrite !Nat.add_0_l.
    unfold name_at. rewrite Z2Nat.id, Hk by lia. split; [done |]. split; [done |].
    intros Hlt. apply Nat.ltb_lt in Hlt. by rewrite Hlt.
  - intros j Hj Hnone. rewrite fill_gaps_lookup, Hnone.
    rewrite decide_True by lia. split; [done |].
    rewrite (menu_rows_lookup _ _ _ _ _ _ _ (labels_from_lookup ht M _ Hj)).
    eexists. split; [done |]. cbn [label]. unfold name_at. by rewrite Hnone.
Qed.

Lemma menu_presents_topics_sample :
  ∃ ht' out,
    @draw_menu sample 6 sparse_catalog = Some (ht', out)
    ∧ (∀ k t, sparse_catalog !! k = Some t →
         ht' !! k = Some t
         ∧ ∃ p, out !! Z.to_nat k = Some p
             ∧ label p = t.1
             ∧ at_y p = to_int (2 + 1 + Z.of_nat (Z.to_nat k mod (size sparse_catalog / 2 + 1)))
             ∧ ((Z.to_nat k < size sparse_catalog / 2 + 1)%nat → at_x p = 1))
    ∧ (∀ j, (j < 5)%nat → sparse_catalog !! Z.of_nat j = None →
         ht' !! Z.of_nat j = Some default_topic
         ∧ ∃ p, out !! j = Some p ∧ label p = "").
Proof.
  apply (@menu_presents_topics sample sparse_catalog 5 6 sparse_catalog_orders). lia.
Defined.

(** C5 as stated fails. The orders -1 and 1 leave a gap, and the loop of
    the menu is still running after every number of turns up to [2 ^ 31]:
    nothing is presented. And with the orders 0, 2 and 4 the topics of the
    orders 2 and 4 are printed at the same place, the later over the
    earlier. *)
Lemma menu_of_gapped_catalogs :
  (∀ fuel, Z.of_nat fuel ≤ 2 ^ 31 → @draw_menu sample fuel negative_catalog = None)
  ∧ snd <$> @draw_menu sample 6 sparse_catalog
    = Some [Shortcut 1 3 "<M>ovement"; Shortcut 1 4 ""; Shortcut 39 3 "<I>tems";
            Shortcut 39 4 ""; Shortcut 39 3 "<C>rafting"].
Proof.
  split; [| by vm_compute].
  intros fuel Hfuel. unfold draw_menu. apply draw_menu_loop_runs.
  - intros j Hj. lia.
  - exists (-1). split; [vm_compute; by eexists | lia].
  - lia.
Qed.

(** * Further properties of the code *)

(** ** Loading *)

Lemma load_records_keeps `{E : Externals} (note_colors dir_grid : string) (h : help)
  (jos : list JsonObject) (k : Z) :
  is_Some (help_texts h !! k) →
  is_Some (help_texts (load_records note_colors dir_grid h jos).1 !! k).
Proof.
  revert h. induction jos as [|jo jos IH]; intros h Hk; [done |].
  cbn [load_records].
  destruct (load_record note_colors dir_grid jo) as [[order t]|e]; [| done].
  apply IH. cbn [help_texts]. rewrite lookup_insert. by case_decide.
Qed.

(** X1: loading never takes an order out of the catalog, whatever the data
    are and whether the load succeeds or fails: an order that has a topic
    before [deserialize] has one after it. *)
Theorem load_never_removes `{E : Externals} (h : help) (jos : list JsonObject) (k : Z) :
  is_Some (help_texts h !! k) → is_Some (help_texts (deserialize h jos).1 !! k).
Proof. intros Hk. unfold deserialize. by apply load_records_keeps. Qed.

Lemma load_never_removes_sample :
  is_Some
    (help_texts
       (@deserialize sample (Help sparse_catalog [])
          [record "Movement" 0 []; delete "name" (record "Items" 1 [])]).1 !! 4).
Proof.
  apply (@load_never_removes sample (Help sparse_catalog [])
           [record "Movement" 0 []; delete "name" (record "Items" 1 [])] 4).
  vm_compute. by eexists.
Defined.

Lemma load_records_hotkeys `{E : Externals} (note_colors dir_grid : string) (h : help)
  (jos : list JsonObject) :
  (length (hotkeys (load_records note_colors dir_grid h jos).1)
   ≤ length (hotkeys h) + length jos)%nat
  ∧ ((load_records note_colors dir_grid h jos).2 = None
     ↔ length (hotkeys (load_records note_colors dir_grid h jos).1)
       = (length (hotkeys h) + length jos)%nat).
Proof.
  revert h. induction jos as [|jo jos IH]; intros h.
  - cbn. split; [lia |]. split; [lia | done].
  - cbn [load_records length].
    destruct (load_record note_colors dir_grid jo) as [[order t]|e].
    + destruct (IH (Help (<[order := t]> (help_texts h)) (hotkeys h ++ [get_hotkeys t.1])))
        as [Hle Hiff].
      cbn [hotkeys] in Hle, Hiff. rewrite length_app in Hle, Hiff. cbn [length] in Hle, Hiff.
      split; [lia |]. rewrite Hiff. lia.
    + cbn. split; [lia |]. split; [done | lia].
Qed.

(** X2: after [deserialize] the list of hotkeys has one entry for every
    record that was stored: never more entries than records, and as many
    entries as records exactly when the load has succeeded. *)
Theorem hotkeys_count_records `{E : Externals} (h : help) (jos : list JsonObject) :
  (length (hotkeys (deserialize h jos).1) ≤ length jos)%nat
  ∧ ((deserialize h jos).2 = None
     ↔ length (hotkeys (deserialize h jos).1) = length jos).
Proof.
  unfold deserialize.
  destruct (load_records_hotkeys get_note_colors get_dir_grid (Help (help_texts h) []) jos)
    as [Hle Hiff].
  cbn [hotkeys length] in Hle, Hiff. split; [lia |]. rewrite Hiff. lia.
Qed.

(** Under an order that some record has, the catalog after the records does
    not depend on the catalog before them. *)
Lemma store_all_covered `{E : Externals} (note_colors dir_grid : string)
  (rs : list topic_record) (ht ht' : gmap Z topic) (k : Z) :
  k ∈ rec_order <$> rs →
  store_all note_colors dir_grid rs ht !! k = store_all note_colors dir_grid rs ht' !! k.
Proof.
  revert ht ht'. induction rs as [|r rs IH]; intros ht ht' Hk.
  - by apply elem_of_nil in Hk.
  - rewrite !store_all_cons.
    destruct (decide (k ∈ rec_order <$> rs)) as [Hin|Hout]; [by apply IH |].
    rewrite !store_all_other by done.
    rewrite fmap_cons in Hk. apply elem_of_cons in Hk as [-> | Hk]; [| done].
    by rewrite !lookup_insert_eq.
Qed.

Lemma store_all_twice `{E : Externals} (note_colors dir_grid : string)
  (rs : list topic_record) (ht : gmap Z topic) :
  store_all note_colors dir_grid rs (store_all note_colors dir_grid rs ht)
  = store_all note_colors dir_grid rs ht.
Proof.
  apply map_eq. intros k.
  destruct (decide (k ∈ rec_order <$> rs)) as [Hin|Hout].
  - by apply store_all_covered.
  - by rewrite store_all_other.
Qed.

(** X3: loading the same well-formed data a second time changes nothing:
    the catalog and the hotkeys are those of the first load. *)
Theorem reload_same_data `{E : Externals} (h : help) (jos : list JsonObject)
  (rs : list topic_record) :
  Forall2 well_formed jos rs →
  deserialize (deserialize h jos).1 jos = deserialize h jos.
Proof.
  intros Hwf. unfold deserialize.
  rewrite !(load_records_well_formed _ _ _ _ _ Hwf). cbn [fst help_texts hotkeys].
  by rewrite store_all_twice.
Qed.

Lemma reload_same_data_sample :
  @deserialize sample
    (@deserialize sample (Help sparse_catalog [])
       [record "Movement" 0 ["<GAME_DIRECTORIES>"]; record "Items" 0 ["b"]]).1
    [record "Movement" 0 ["<GAME_DIRECTORIES>"]; record "Items" 0 ["b"]]
  = @deserialize sample (Help sparse_catalog [])
      [record "Movement" 0 ["<GAME_DIRECTORIES>"]; record "Items" 0 ["b"]].
Proof.
  apply (@reload_same_data sample (Help sparse_catalog [])
           [record "Movement" 0 ["<GAME_DIRECTORIES>"]; record "Items" 0 ["b"]]
           [TopicRecord "Movement" 0 ["<GAME_DIRECTORIES>"]; TopicRecord "Items" 0 ["b"]]).
  repeat constructor; try (by vm_compute); by exists "help".
Defined.

(** X4: load and display together. After a first load of well-formed
    records whose orders are their positions, the hotkeys at index [i] are
    those of the name of the [i]-th record, and selecting index [i] shows
    the resolved messages of that record, joined with two line feeds (or
    nothing when it has no message); the catalog stays as it was loaded. *)
Theorem loaded_topic_shown `{E : Externals} (jos : list JsonObject)
  (rs : list topic_record) (i : nat) (r : topic_record) (fuel : nat)
  (resolved log : list string) :
  Forall2 well_formed jos rs →
  (∀ (j : nat) r', rs !! j = Some r' → rec_order r' = Z.of_nat j) →
  rs !! i = Some r →
  Z.of_nat i < 2 ^ 31 →
  resolve_lines fuel (expand_line get_note_colors get_dir_grid <$> rec_messages r)
  = Some (resolved, log) →
  hotkeys (deserialize single_instance jos).1 !! i = Some (get_hotkeys (rec_name r))
  ∧ ∃ st',
      select_topic fuel i (Screen (help_texts (deserialize single_instance jos).1) [] [] [])
      = Some st'
      ∧ catalog st' = help_texts (deserialize single_instance jos).1
      ∧ popups st' = match resolved with
                     | [] => []
                     | _ :: _ => [String.concat (nl +:+ nl) resolved]
                     end.
Proof.
  intros Hwf Hpos Hr Hint Hres. unfold deserialize.
  rewrite (load_records_well_formed _ _ _ _ _ Hwf). cbn [fst help_texts hotkeys app].
  split; [by rewrite list_lookup_fmap, Hr |].
  assert (store_all get_note_colors get_dir_grid rs (help_texts single_instance)
            !! Z.of_nat i = Some (stored get_note_colors get_dir_grid r)) as Hlook.
  { rewrite <- (Hpos _ _ Hr). apply store_all_distinct.
    - by apply orders_at_positions.
    - by eapply list_elem_of_lookup_2. }
  unfold select_topic, index_topic. cbn [catalog].
  rewrite to_int_small by lia. rewrite Hlook. cbn [stored snd]. rewrite Hres. cbn.
  eexists. split; [done |]. cbn [catalog popups]. split; [done |].
  destruct resolved as [|front rest]; [done |]. cbn. by rewrite accumulate_sep_concat.
Qed.

Lemma loaded_topic_shown_sample :
  hotkeys (@deserialize sample single_instance
             [record "Movement" 0 ["a"]; record "Items" 1 ["Press <press_open>."; "b"]]).1
    !! 1%nat
  = Some (@get_hotkeys sample "Items")
  ∧ ∃ st',
      @select_topic sample 4 1
        (Screen (help_texts (@deserialize sample single_instance
                   [record "Movement" 0 ["a"];
                    record "Items" 1 ["Press <press_open>."; "b"]]).1) [] [] [])
      = Some st'
      ∧ catalog st'
        = help_texts (@deserialize sample single_instance
                        [record "Movement" 0 ["a"];
                         record "Items" 1 ["Press <press_open>."; "b"]]).1
      ∧ popups st' = [String.concat (nl +:+ nl) ["Press <color_light_blue>o</color>."; "b"]].
Proof.
  apply (@loaded_topic_shown sample
           [record "Movement" 0 ["a"]; record "Items" 1 ["Press <press_open>."; "b"]]
           [TopicRecord "Movement" 0 ["a"];
            TopicRecord "Items" 1 ["Press <press_open>."; "b"]]
           1%nat (TopicRecord "Items" 1 ["Press <press_open>."; "b"]) 4%nat
           ["Press <color_light_blue>o</color>."; "b"] []).
  - repeat constructor; try (by vm_compute); by exists "help".
  - intros [|[|j]] r' Hr'; [by injection Hr' as <- | by injection Hr' as <- | done].
  - done.
  - lia.
  - by vm_compute.
Defined.

(** ** The legend of the note colours *)

Lemma fold_left_append {A : Type} (f : A → string) (l : list A) (init : string) :
  fold_left (λ text x, text +:+ f x) l init
  = init +:+ foldr (λ x rest, f x +:+ rest) EmptyString l.
Proof.
  revert init. induction l as [|x l IH]; intros init; cbn [fold_left foldr].
  - by rewrite string_app_nil_r.
  - by rewrite IH, string_app_assoc.
Qed.

(** X5: the legend of [get_note_colors] is the translated heading followed
    by one entry for every note colour, in the order of the colours; every
    entry, the last one too, ends with a comma and a space. *)
Theorem note_colors_legend `{E : Externals} :
  get_note_colors
  = translate "Note colors: "
    +:+ foldr (λ color_pair rest, note_color_entry color_pair +:+ rest)
          EmptyString note_color_names.
Proof. unfold get_note_colors. apply (fold_left_append note_color_entry). Qed.

(** ** The diagram once it is filled *)

(** The diagram of [get_dir_grid] with every slot holding its text. *)
Lemma dir_grid_filled `{E : Externals} :
  get_dir_grid = render (filled keys_bound_to (rev all_slots)) diagram.
Proof.
  rewrite dir_grid_fold, (template_pieces keys_bound_to), fill_slots.
  - by rewrite List.app_nil_r.
  - rewrite List.app_nil_r. exact all_slots_distinct.
  - exact all_slots_clear.
Qed.

Lemma all_slots_two (dir : action_id) (i : nat) : (dir, i) ∈ all_slots → (i < 2)%nat.
Proof.
  intros Hin. apply list_elem_of_In in Hin.
  pose proof (proj1 (forallb_forall _ _) all_slots_clear _ Hin) as Hok.
  cbn [fst snd] in Hok. apply andb_prop in Hok as [Hi _]. by apply Nat.ltb_lt.
Qed.

Lemma all_slots_pieces (dir : action_id) (i : nat) :
  (dir, i) ∈ all_slots → pieces_clear dir i diagram = true.
Proof.
  intros Hin. apply list_elem_of_In in Hin.
  pose proof (proj1 (forallb_forall _ _) all_slots_clear _ Hin) as Hok.
  cbn [fst snd] in Hok. by apply andb_prop in Hok as [_ Hclear].
Qed.

(** Replacing the token of a slot in pieces whose slots are all filled
    changes nothing. *)
Lemma settled_pieces (keys : action_id → list ascii) (slots : list (action_id * nat))
  (dir : action_id) (i : nat) (after : string) (segs : list segment) :
  (i < 2)%nat → pieces_clear dir i segs = true →
  (∀ dir' i', Slot dir' i' ∈ segs → (dir', i') ∈ slots) →
  replace_from (slot_token dir i) after 0 (render (filled keys slots) segs)
  = render (filled keys slots) segs.
Proof.
  intros Hi. induction segs as [|seg segs IH]; intros Hclear Hall; [done |].
  apply andb_prop in Hclear as [Hseg Hclear].
  rewrite !render_cons. destruct seg as [s|dir' i']; cbn [piece].
  - rewrite (no_clash_inert _ _ Hseg). rewrite IH; [done | done |].
    intros d j Hin. apply Hall. by right.
  - unfold filled at 1 3. rewrite bool_decide_eq_true_2 by (apply Hall; by left).
    rewrite (slot_text_inert dir i _ _ Hi). rewrite IH; [done | done |].
    intros d j Hin. apply Hall. by right.
Qed.

Lemma replace_from_shorter (t : string) (skip : nat) (text : string) :
  (String.length (replace_from t "" skip text) ≤ String.length text)%nat.
Proof.
  revert skip. induction text as [|c text IH]; intros skip; [done |].
  cbn [replace_from]. destruct skip as [|skip].
  - destruct (String.prefix t (String c text)).
    + change ("" +:+ ?s) with s. cbn [String.length].
      specialize (IH (String.length t - 1)%nat). lia.
    + cbn [String.length]. specialize (IH 0%nat). lia.
  - cbn [String.length]. specialize (IH skip). lia.
Qed.

(** A text that the removal of a token leaves as it is has no occurrence
    of the token. *)
Lemma replace_fixed_absent (t text : string) :
  replace_from t "" 0 text = text → absent t text = true.
Proof.
  induction text as [|c text IH]; [done |].
  cbn [replace_from absent]. destruct (String.prefix t (String c text)).
  - intros Heq. apply (f_equal String.length) in Heq.
    change ("" +:+ ?s) with s in Heq. cbn [String.length] in Heq.
    pose proof (replace_from_shorter t (String.length t - 1) text). lia.
  - intros [= Heq]. by rewrite IH.
Qed.

Lemma absent_index (t text : string) :
  t ≠ EmptyString → absent t text = true → String.index 0 t text = None.
Proof.
  intros Ht. induction text as [|c text IH]; cbn [absent String.index].
  - by destruct t.
  - intros Habs. apply andb_prop in Habs as [Hhere Habs].
    apply negb_true_iff in Hhere. rewrite Hhere, IH; done.
Qed.

Lemma dir_grid_no_token `{E : Externals} (dir : action_id) (i : nat) :
  (dir, i) ∈ all_slots → contains get_dir_grid (slot_token dir i) = false.
Proof.
  intros Hin. unfold contains. rewrite absent_index; [done | done |].
  apply replace_fixed_absent. rewrite dir_grid_filled.
  apply settled_pieces.
  - by apply (all_slots_two dir).
  - by apply all_slots_pieces.
  - intros dir' i' Hslot. apply list_elem_of_In, in_rev, list_elem_of_In.
    by apply diagram_slots.
Qed.

(** X6: no slot is left open: whatever the key bindings are, the diagram
    of [get_dir_grid] has no occurrence of the token of slot 0 or of slot 1
    of any direction. *)
Theorem dir_grid_all_slots_filled `{E : Externals} (dir : action_id) :
  contains get_dir_grid (slot_token dir 0) = false
  ∧ contains get_dir_grid (slot_token dir 1) = false.
Proof.
  split; apply dir_grid_no_token; destruct dir;
    apply (bool_decide_unpack _); vm_compute; exact I.
Qed.

Lemma slot_text_take (keys : list ascii) (i : nat) :
  (i < 2)%nat → slot_text keys i = slot_text (take 2 keys) i.
Proof.
  intros Hi. rewrite !slot_text_spec. unfold slot_spec.
  by rewrite lookup_take_lt.
Qed.

(** X7: the diagram shows the first two keys of a direction and no other:
    two sets of bindings that agree on the first two keys of every
    direction give the same diagram. *)
Theorem dir_grid_first_two_keys (E1 E2 : Externals) :
  (∀ dir, take 2 (@keys_bound_to E1 dir) = take 2 (@keys_bound_to E2 dir)) →
  @get_dir_grid E1 = @get_dir_grid E2.
Proof.
  intros Hkeys. rewrite !dir_grid_filled. apply render_ext.
  intros dir i Hslot.
  assert ((dir, i) ∈ all_slots) as Hin by by apply diagram_slots.
  assert ((dir, i) ∈ rev all_slots) as Hrev
    by by apply list_elem_of_In, in_rev, list_elem_of_In.
  unfold filled. rewrite !bool_decide_eq_true_2 by done.
  rewrite (slot_text_take (@keys_bound_to E1 dir)),
    (slot_text_take (@keys_bound_to E2 dir)) by by apply (all_slots_two dir).
  by rewrite Hkeys.
Qed.

Lemma dir_grid_first_two_keys_sample : @get_dir_grid sample = @get_dir_grid sample_rebound.
Proof.
  apply (dir_grid_first_two_keys sample sample_rebound). by intros [].
Defined.

(** ** The menu and the catalog *)

Lemma fill_gaps_below (ht : gmap Z topic) (M : nat) (k : Z) :
  (∀ k, is_Some (ht !! k) → 0 ≤ k < Z.of_nat M) →
  is_Some (fill_gaps ht 0 M !! k) ↔ 0 ≤ k < Z.of_nat M.
Proof.
  intros Hkeys. rewrite fill_gaps_lookup.
  destruct (ht !! k) as [t|] eqn:Hk.
  - split; [intros _; apply Hkeys; by eexists | by eexists].
  - case_decide as Hin; split; [done | by eexists | by intros [? ?] | lia].
Qed.

(** X8: drawing the menu changes the catalog exactly when the orders have
    gaps. When no order is negative the catalog after [draw_menu] holds the
    orders [0 .. M - 1] and no other, [M] being one more than the largest
    order; it is the catalog from before exactly when that one had [M]
    topics already. *)
Theorem menu_fills_gaps `{E : Externals} (ht : gmap Z topic) (M fuel : nat) :
  orders_below ht M → (M < fuel)%nat →
  ∃ ht' out,
    draw_menu fuel ht = Some (ht', out)
    ∧ size ht' = M
    ∧ (∀ k, is_Some (ht' !! k) ↔ 0 ≤ k < Z.of_nat M)
    ∧ (ht' = ht ↔ size ht = M).
Proof.
  intros Hord Hfuel.
  pose proof (draw_menu_ends ht M fuel Hord Hfuel) as Hdraw.
  destruct Hord as (Hkeys & _ & _).
  eexists _, _. split; [exact Hdraw |].
  assert (size (fill_gaps ht 0 M) = M) as Hsize.
  { apply size_of_prefix.
    - intros j Hj. apply fill_gaps_below; [done | lia].
    - intros k Hk. by apply fill_gaps_below in Hk. }
  split; [done |]. split; [intros k; by apply fill_gaps_below |].
  split; [by intros <- |]. intros HM. symmetry.
  apply map_subseteq_size_eq; [| lia].
  apply map_subseteq_spec. intros k t Hk. by rewrite fill_gaps_lookup, Hk.
Qed.

Lemma menu_fills_gaps_sample :
  ∃ ht' out,
    @draw_menu sample 6 sparse_catalog = Some (ht', out)
    ∧ size ht' = 5%nat
    ∧ (∀ k, is_Some (ht' !! k) ↔ 0 ≤ k < Z.of_nat 5)
    ∧ (ht' = sparse_catalog ↔ size sparse_catalog = 5%nat).
Proof.
  apply (@menu_fills_gaps sample sparse_catalog 5 6 sparse_catalog_orders). lia.
Defined.

Lemma to_int_shift_inj (y a b : Z) :
  0 ≤ a < 2 ^ 31 → 0 ≤ b < 2 ^ 31 → to_int (y + a) = to_int (y + b) → a = b.
Proof.
  unfold to_int. intros Ha Hb Heq.
  assert ((y + a + 2 ^ 31) mod 2 ^ 32 = (y + b + 2 ^ 31) mod 2 ^ 32) as Hmod by lia.
  clear Heq. revert Hmod. Z.to_euclidean_division_equations. lia.
Qed.

Lemma mod_second_column (j half : nat) :
  (half ≤ j)%nat → (j < 2 * half)%nat → (j mod half = j - half)%nat.
Proof.
  intros Hge Hlt. symmetry. apply (Nat.mod_unique j half 1); lia.
Qed.

(** X9: in the menu of a catalog without gaps no two topics are printed at
    the same place. The orders are [0 .. C - 1], text widths are not
    negative; then two entries of the menu with the same column and the
    same row are one entry. *)
Theorem dense_menu_distinct_cells `{E : Externals} (ht : gmap Z topic) (C fuel : nat) :
  (∀ s, 0 ≤ utf8_width s) →
  (∀ k, is_Some (ht !! k) ↔ 0 ≤ k < Z.of_nat C) →
  Z.of_nat C ≤ 2 ^ 31 → (C < fuel)%nat →
  ∃ ht' out,
    draw_menu fuel ht = Some (ht', out)
    ∧ ∀ j j' p p', out !! j = Some p → out !! j' = Some p' →
        at_x p = at_x p' → at_y p = at_y p' → j = j'.
Proof.
  intros Hwidth Hdense Hint Hfuel.
  destruct (orders_below_dense ht C Hdense Hint) as [Hord Hsize].
  pose proof (draw_menu_ends ht C fuel Hord Hfuel) as Hdraw.
  rewrite Hsize in Hdraw.
  remember (C / 2 + 1)%nat as half eqn:Hhalf.
  assert ((1 ≤ half)%nat ∧ (C < 2 * half)%nat ∧ Z.of_nat half ≤ 2 ^ 30 + 1)
    as (Hpos & Hcols & Hsmall).
  { pose proof (Nat.div_mod_eq C 2). pose proof (Nat.mod_upper_bound C 2). lia. }
  eexists _, _. split; [exact Hdraw |].
  intros j j' p p' Hp Hp' Hx Hy.
  assert (j < C)%nat as Hj
    by (apply lookup_lt_Some in Hp; by rewrite menu_rows_length, labels_from_length in Hp).
  assert (j' < C)%nat as Hj'
    by (apply lookup_lt_Some in Hp'; by rewrite menu_rows_length, labels_from_length in Hp').
  rewrite (menu_rows_lookup _ _ _ _ _ _ _ (labels_from_lookup ht C j Hj)) in Hp.
  rewrite (menu_rows_lookup _ _ _ _ _ _ _ (labels_from_lookup ht C j' Hj')) in Hp'.
  apply (inj Some) in Hp, Hp'. subst p p'. cbn [at_x at_y] in Hx, Hy.
  rewrite !Nat.add_0_l in Hx, Hy. rewrite Nat.sub_0_r in Hx.
  apply to_int_shift_inj in Hy;
    [| pose proof (Nat.mod_upper_bound j half); lia
     | pose proof (Nat.mod_upper_bound j' half); lia].
  clear Hhalf.
  apply Nat2Z.inj in Hy.
  (* the second column lies to the right of the first *)
  set (first := take half (labels_from ht 0 C)) in *.
  destruct (second_column_max first (divide_round_up menu_width 2)) as (_ & Hall & _).
  cbn zeta in Hall.
  assert (4 ≤ fold_left (λ sc cat_name, Z.max sc (utf8_width cat_name + 4)) first
                (divide_round_up menu_width 2)) as Hsc.
  { assert (translate (name_at ht 0) ∈ first) as Hin.
    { apply (list_elem_of_lookup_2 _ 0%nat). unfold first.
      rewrite lookup_take_lt by lia. apply labels_from_lookup. lia. }
    specialize (Hall _ Hin). specialize (Hwidth (translate (name_at ht 0))). lia. }
  destruct (Nat.ltb_spec j half) as [Hlt|Hge];
    destruct (Nat.ltb_spec j' half) as [Hlt'|Hge']; try lia.
  - by rewrite !Nat.mod_small in Hy.
  - rewrite !mod_second_column in Hy by lia. lia.
Qed.

Lemma dense_catalog_dense : ∀ k, is_Some (dense_catalog !! k) ↔ 0 ≤ k < Z.of_nat 3.
Proof.
  intros k. rewrite <- elem_of_dom. unfold dense_catalog.
  rewrite !dom_insert_L, dom_singleton_L. set_unfold. lia.
Qed.

Lemma dense_menu_distinct_cells_sample :
  ∃ ht' out,
    @draw_menu sample 4 dense_catalog = Some (ht', out)
    ∧ ∀ j j' p p', out !! j = Some p → out !! j' = Some p' →
        at_x p = at_x p' → at_y p = at_y p' → j = j'.
Proof.
  apply (@dense_menu_distinct_cells sample dense_catalog 3 4).
  - intros s. cbn. lia.
  - exact dense_catalog_dense.
  - lia.
  - lia.
Defined.

(** ** The loop of the help screen *)

Lemma existsb_eqb_elem (s : string) (keys : list string) :
  existsb (String.eqb s) keys = true ↔ s ∈ keys.
Proof.
  rewrite existsb_exists. split.
  - intros (k & Hin & Heq). apply String.eqb_eq in Heq as <-. by apply list_elem_of_In.
  - intros Hin. exists s. split; [by apply list_elem_of_In | apply String.eqb_refl].
Qed.

Lemma scan_hotkeys_unmatched `{E : Externals} (fuel : nat) (sInput : string) (i : nat)
  (hks : list (list string)) (st : screen) (action : string) :
  (∀ keys, keys ∈ hks → sInput ∉ keys) →
  scan_hotkeys fuel sInput i hks st action = Some (st, action).
Proof.
  revert i. induction hks as [|keys hks IH]; intros i Hno; [done |].
  cbn [scan_hotkeys].
  destruct (existsb (String.eqb sInput) keys) eqn:Hkeys.
  - apply existsb_eqb_elem in Hkeys. destruct (Hno keys); [by left | done].
  - apply IH. intros ks Hks. apply Hno. by right.
Qed.

(** X10: an input that is no hotkey of any topic selects nothing: the turn
    redraws the menu and shows no document, and the loop ends when the
    action is [QUIT] and goes on to the next input otherwise. *)
Theorem unmatched_input `{E : Externals} (fuel : nat) (hks : list (list string))
  (action sInput : string) (later : list (string * string)) (st : screen)
  (ht : gmap Z topic) (menu : list shortcut) :
  draw_menu fuel (catalog st) = Some (ht, menu) →
  (∀ keys, keys ∈ hks → sInput ∉ keys) →
  display_help fuel hks ((action, sInput) :: later) st =
    if String.eqb action "QUIT"
    then Some (Screen ht (menus st ++ [menu]) (popups st) (debug_log st))
    else display_help fuel hks later
           (Screen ht (menus st ++ [menu]) (popups st) (debug_log st)).
Proof.
  intros Hdraw Hno. cbn [display_help]. rewrite Hdraw. cbn.
  by rewrite scan_hotkeys_unmatched.
Qed.

Lemma unmatched_input_sample :
  @display_help sample 4 [["M"]; ["I"]] [("QUIT", "x"); ("ANY_INPUT", "M")]
    (Screen dense_catalog [] [] [])
  = if String.eqb "QUIT" "QUIT"
    then Some (Screen dense_catalog
                 ([] ++ [[Shortcut 1 3 "<M>ovement"; Shortcut 1 4 "<I>tems";
                          Shortcut 39 3 "<C>rafting"]]) [] [])
    else @display_help sample 4 [["M"]; ["I"]] [("ANY_INPUT", "M")]
           (Screen dense_catalog
              ([] ++ [[Shortcut 1 3 "<M>ovement"; Shortcut 1 4 "<I>tems";
                       Shortcut 39 3 "<C>rafting"]]) [] []).
Proof.
  apply (@unmatched_input sample 4 [["M"]; ["I"]] "QUIT" "x" [("ANY_INPUT", "M")]
           (Screen dense_catalog [] [] []) dense_catalog).
  - by vm_compute.
  - intros keys Hkeys Hx.
    apply elem_of_cons in Hkeys as [-> | Hkeys];
      [| apply list_elem_of_singleton in Hkeys as ->];
      apply list_elem_of_singleton in Hx; discriminate.
Defined.

Lemma draw_menu_loop_keeps `{E : Externals} (fuel half_size : nat) (y : Z) (i : nat)
  (ht ht' : gmap Z topic) (sc : Z) (out out' : list shortcut) (k : Z) (t : topic) :
  draw_menu_loop fuel half_size y i ht sc out = Some (ht', out') →
  ht !! k = Some t → ht' !! k = Some t.
Proof.
  revert i ht sc out. induction fuel as [|fuel IH]; intros i ht sc out; [done |].
  cbn [draw_menu_loop]. destruct (i <? size ht)%nat; [| by intros [= <- _]].
  destruct (index_topic ht (to_int (Z.of_nat i))) as [ht1 t1] eqn:Hidx.
  intros Hloop Hk. eapply IH; [exact Hloop |].
  replace ht1 with (index_topic ht (to_int (Z.of_nat i))).1 by (by rewrite Hidx).
  by rewrite index_topic_lookup, Hk.
Qed.

Lemma resolve_line_log `{E : Externals} (fuel : nat) (line line_proc : string)
  (log : list string) :
  resolve_line fuel line = Some (line_proc, log) → log = [].
Proof.
  intros Hres. unfold resolve_line in Hres.
  pose proof (expand_press_log fuel (translate line)
                (find (translate line) "<press_" 0) []) as Hlog.
  by rewrite Hres in Hlog.
Qed.

Lemma resolve_lines_log `{E : Externals} (fuel : nat) (lines resolved log : list string) :
  resolve_lines fuel lines = Some (resolved, log) → log = [].
Proof.
  revert resolved log. induction lines as [|line lines IH]; intros resolved log.
  - by intros [= _ <-].
  - cbn [resolve_lines].
    destruct (resolve_line fuel line) as [[l log1]|] eqn:Hline; [| done].
    cbn. destruct (resolve_lines fuel lines) as [[more log2]|] eqn:Hlines; [| done].
    cbn. intros [= _ <-].
    by rewrite (resolve_line_log _ _ _ _ Hline), (IH _ _ eq_refl).
Qed.

(** What a step of the help screen may do to the screen: topics stay, the
    documents shown are added to, the debug log stays. *)
Lemma select_topic_grows `{E : Externals} (fuel i : nat) (st st' : screen) :
  select_topic fuel i st = Some st' →
  (∀ k t, catalog st !! k = Some t → catalog st' !! k = Some t)
  ∧ popups st `prefix_of` popups st'
  ∧ debug_log st' = debug_log st.
Proof.
  unfold select_topic.
  destruct (index_topic (catalog st) (to_int (Z.of_nat i))) as [ht t] eqn:Hidx.
  destruct (resolve_lines fuel t.2) as [[resolved log]|] eqn:Hres; [| done].
  cbn. intros [= <-]. cbn [catalog popups debug_log].
  split; [| split].
  - intros k t' Hk.
    replace ht with (index_topic (catalog st) (to_int (Z.of_nat i))).1 by (by rewrite Hidx).
    by rewrite index_topic_lookup, Hk.
  - by apply prefix_app_r.
  - by rewrite (resolve_lines_log _ _ _ _ Hres), List.app_nil_r.
Qed.

Lemma scan_hotkeys_grows `{E : Externals} (fuel : nat) (sInput : string) (i : nat)
  (hks : list (list string)) (st st' : screen) (action action' : string) :
  scan_hotkeys fuel sInput i hks st action = Some (st', action') →
  (∀ k t, catalog st !! k = Some t → catalog st' !! k = Some t)
  ∧ popups st `prefix_of` popups st'
  ∧ debug_log st' = debug_log st.
Proof.
  revert i st action. induction hks as [|keys hks IH]; intros i st action.
  - by intros [= <- _].
  - cbn [scan_hotkeys]. destruct (existsb (String.eqb sInput) keys); [| apply IH].
    destruct (select_topic fuel i st) as [st1|] eqn:Hsel; [| done]. cbn.
    intros Hscan. apply IH in Hscan as (Hcat & Hpop & Hlog).
    apply select_topic_grows in Hsel as (Hcat1 & Hpop1 & Hlog1).
    split; [| split].
    + intros k t Hk. by apply Hcat, Hcat1.
    + by etrans.
    + congruence.
Qed.

(** X11: a session of the help screen never changes or removes a topic of
    the catalog, never takes back a document that it has shown, and never
    writes to the debug log: whatever the inputs are, every topic is still
    stored under its order at the end, the documents shown before are the
    first of those shown at the end, and the debug log is as before. *)
Theorem session_keeps_topics `{E : Externals} (fuel : nat) (hks : list (list string))
  (inputs : list (string * string)) (st st' : screen) :
  display_help fuel hks inputs st = Some st' →
  (∀ k t, catalog st !! k = Some t → catalog st' !! k = Some t)
  ∧ popups st `prefix_of` popups st'
  ∧ debug_log st' = debug_log st.
Proof.
  revert st. induction inputs as [|[action sInput] later IH]; intros st.
  - by intros [= <-].
  - cbn [display_help].
    destruct (draw_menu fuel (catalog st)) as [[ht menu]|] eqn:Hdraw; [| done]. cbn.
    destruct (scan_hotkeys fuel sInput 0 hks _ action) as [[st1 action1]|] eqn:Hscan;
      [| done]. cbn.
    apply scan_hotkeys_grows in Hscan as (Hcat & Hpop & Hlog).
    cbn [catalog popups debug_log] in Hcat, Hpop, Hlog.
    assert (∀ k t, catalog st !! k = Some t → catalog st1 !! k = Some t) as Hcat1.
    { intros k t Hk. apply Hcat. unfold draw_menu in Hdraw.
      by eapply draw_menu_loop_keeps. }
    destruct (String.eqb action1 "QUIT").
    + by intros [= <-].
    + intros Hrest. apply IH in Hrest as (Hcat2 & Hpop2 & Hlog2).
      split; [| split].
      * intros k t Hk. by apply Hcat2, Hcat1.
      * by etrans.
      * congruence.
Qed.

Lemma session_keeps_topics_sample :
  ∃ st',
    @display_help sample 6 [["M"]; ["I"]; ["C"]]
      [("ANY_INPUT", "I"); ("ANY_INPUT", "C"); ("QUIT", "q")]
      (Screen sparse_catalog [] ["earlier"] []) = Some st'
    ∧ (∀ k t, sparse_catalog !! k = Some t → catalog st' !! k = Some t)
    ∧ ["earlier"] `prefix_of` popups st'
    ∧ debug_log st' = [].
Proof.
  eexists. split; [by vm_compute |].
  apply (@session_keeps_topics sample 6 [["M"]; ["I"]; ["C"]]
           [("ANY_INPUT", "I"); ("ANY_INPUT", "C"); ("QUIT", "q")]
           (Screen sparse_catalog [] ["earlier"] [])).
  by vm_compute.
Defined.

(** X12: a topic is opened by index, not by order. After a first load of
    well-formed records none of which has the order [i], selecting index
    [i], the position of the [i]-th record in the data, shows no document
    and puts an empty default topic under the order [i]. *)
Theorem selection_without_topic `{E : Externals} (jos : list JsonObject)
  (rs : list topic_record) (fuel i : nat) (drawn : list (list shortcut))
  (shown log : list string) :
  Forall2 well_formed jos rs →
  Z.of_nat i ∉ rec_order <$> rs →
  Z.of_nat i < 2 ^ 31 →
  select_topic fuel i
    (Screen (help_texts (deserialize single_instance jos).1) drawn shown log)
  = Some (Screen (<[Z.of_nat i := default_topic]>
                    (help_texts (deserialize single_instance jos).1))
                 drawn shown log).
Proof.
  intros Hwf Hout Hint. unfold deserialize.
  rewrite (load_records_well_formed _ _ _ _ _ Hwf). cbn [fst help_texts].
  unfold select_topic, index_topic. cbn [catalog].
  rewrite to_int_small by lia. rewrite store_all_other by done.
  change (help_texts single_instance) with (∅ : gmap Z topic).
  rewrite lookup_empty. cbn. by rewrite !List.app_nil_r.
Qed.

Lemma selection_without_topic_sample :
  @select_topic sample 0 1
    (Screen (help_texts (@deserialize sample single_instance
               [record "Movement" 0 ["a"]; record "Items" 5 ["b"]]).1) [] [] [])
  = Some (Screen (<[Z.of_nat 1 := default_topic]>
                    (help_texts (@deserialize sample single_instance
                       [record "Movement" 0 ["a"]; record "Items" 5 ["b"]]).1))
                 [] [] []).
Proof.
  apply (@selection_without_topic sample
           [record "Movement" 0 ["a"]; record "Items" 5 ["b"]]
           [TopicRecord "Movement" 0 ["a"]; TopicRecord "Items" 5 ["b"]]
           0%nat 1%nat [] [] []).
  - repeat constructor; try (by vm_compute); by exists "help".
  - cbn. intros Hin. repeat (apply elem_of_cons in Hin as [Hin|Hin]; [lia |]).
    by apply elem_of_nil in Hin.
  - lia.
Defined.

(** ** The windows *)

(** X13: where [init_windows] puts the help. When the terminal is at least
    as large as the full screen the border window lies inside the terminal,
    with the room that is left split evenly, the odd cell going to the right
    and to the bottom; the window of the help lies inside the border window
    with one cell of border on every side. *)
Theorem windows_centred (full_height full_width termx termy : Z) :
  full_width ≤ termx → full_height ≤ termy →
  let border := (init_windows full_height full_width termx termy).1 in
  let inner := (init_windows full_height full_width termx termy).2 in
  0 ≤ win_x border ∧ win_x border + win_width border ≤ termx
  ∧ 0 ≤ termx - (win_x border + win_width border) - win_x border ≤ 1
  ∧ 0 ≤ win_y border ∧ win_y border + win_height border ≤ termy
  ∧ 0 ≤ termy - (win_y border + win_height border) - win_y border ≤ 1
  ∧ win_x inner = win_x border + 1
  ∧ win_x inner + win_width inner = win_x border + win_width border - 1
  ∧ win_y inner = win_y border + 1
  ∧ win_y inner + win_height inner = win_y border + win_height border - 1.
Proof.
  intros Hx Hy. cbn. unfold centred.
  destruct (Z.ltb_spec full_width termx); destruct (Z.ltb_spec full_height termy);
    repeat split; try lia;
    try (pose proof (Z.quot_rem' (termx - full_width) 2);
         pose proof (Z.rem_bound_pos (termx - full_width) 2);
         pose proof (Z.quot_rem' (termy - full_height) 2);
         pose proof (Z.rem_bound_pos (termy - full_height) 2); lia).
Qed.

Lemma windows_centred_sample :
  let border := (init_windows 24 80 101 30).1 in
  let inner := (init_windows 24 80 101 30).2 in
  0 ≤ win_x border ∧ win_x border + win_width border ≤ 101
  ∧ 0 ≤ 101 - (win_x border + win_width border) - win_x border ≤ 1
  ∧ 0 ≤ win_y border ∧ win_y border + win_height border ≤ 30
  ∧ 0 ≤ 30 - (win_y border + win_height border) - win_y border ≤ 1
  ∧ win_x inner = win_x border + 1
  ∧ win_x inner + win_width inner = win_x border + win_width border - 1
  ∧ win_y inner = win_y border + 1
  ∧ win_y inner + win_height inner = win_y border + win_height border - 1.
Proof. apply (windows_centred 24 80 101 30); lia. Defined.

(** ** Lines without a complete token *)

Lemma prefix_length (s1 s2 : string) :
  String.prefix s1 s2 = true → (String.length s1 ≤ String.length s2)%nat.
Proof.
  revert s2. induction s1 as [|a s1 IH]; intros s2; [cbn; lia |].
  destruct s2 as [|b s2]; [done |]. rewrite prefix_cons.
  destruct (ascii_dec a b); [| done]. intros Hpre%IH. cbn. lia.
Qed.

(** Where [String.index] finds a text there is room for it. *)
Lemma index_bounds (n m : nat) (s1 s2 : string) :
  String.index n s1 s2 = Some m →
  (n ≤ m)%nat ∧ (m + String.length s1 ≤ String.length s2)%nat.
Proof.
  revert n m. induction s2 as [|b s2 IH]; intros n m.
  - destruct n; cbn; [| done]. destruct s1; [| done]. intros [= <-]. cbn. lia.
  - destruct n as [|n]; cbn [String.index].
    + destruct (String.prefix s1 (String b s2)) eqn:Hpre.
      * intros [= <-]. apply prefix_length in Hpre. lia.
      * destruct (String.index 0 s1 s2) as [k|] eqn:Hk; [| done].
        intros [= <-]. destruct (IH _ _ Hk). cbn. lia.
    + destruct (String.index n s1 s2) as [k|] eqn:Hk; [| done].
      intros [= <-]. destruct (IH _ _ Hk). cbn. lia.
Qed.

(** A part of a text that is [a +:+ b] starts with a part that is [a] and
    goes on with a part that is [b]. *)
Lemma substring_split (a b s : string) (q : nat) :
  String.substring q (String.length (a +:+ b)) s = a +:+ b →
  String.substring q (String.length a) s = a
  ∧ String.substring (q + String.length a) (String.length b) s = b.
Proof.
  revert s. induction q as [|q IHq]; intros s.
  - revert s. induction a as [|c a IHa]; intros s.
    + intros Hb. split; [by destruct s | exact Hb].
    + rewrite string_app_cons. cbn [String.length].
      destruct s as [|c' s]; [done |]. cbn [String.substring].
      intros [= -> Hrest]. destruct (IHa _ Hrest) as [Ha Hb].
      split; [by rewrite Ha | exact Hb].
  - destruct s as [|c s]; cbn [String.substring].
    + destruct a; [| done]. destruct b; [| done]. done.
    + apply IHq.
Qed.

(** A token is not in a text whose first [<press_] has no [>] after it. *)
Lemma token_never_occurs (text action : string) (p q : nat) :
  String.index 0 "<press_" text = Some p →
  String.index p ">" text = None →
  String.substring q (String.length ("<press_" +:+ action +:+ ">")) text
  ≠ "<press_" +:+ action +:+ ">".
Proof.
  intros Hfirst Hclose Hocc.
  apply substring_split in Hocc as [Hhead Hrest].
  apply substring_split in Hrest as [_ Hend].
  destruct (decide (q < p)%nat) as [Hlt|Hge].
  - by apply (index_correct2 _ _ _ _ Hfirst q); [lia | done |].
  - by apply (index_correct3 _ (q + String.length "<press_" + String.length action)
                _ _ Hclose); [| lia |].
Qed.

(** Replacing a token that is not in the text leaves the text. *)
Lemma replace_from_missing (t after text : string) :
  (∀ q, String.substring q (String.length t) text ≠ t) →
  replace_from t after 0 text = text.
Proof.
  induction text as [|c text IH]; intros Hno; [done |].
  cbn [replace_from].
  destruct (String.prefix t (String c text)) eqn:Hpre.
  - apply prefix_correct in Hpre. by destruct (Hno 0%nat).
  - rewrite IH; [done |]. intros q. exact (Hno (S q)).
Qed.

Lemma find_past_end (text needle : string) (pos : Z) :
  string_size text < pos → find text needle pos = npos.
Proof.
  intros Hpos. unfold find. by destruct (Z.ltb_spec (string_size text) pos); [| lia].
Qed.

Lemma find_at (text needle : string) (p : nat) :
  (p ≤ String.length text)%nat →
  find text needle (Z.of_nat p)
  = from_option Z.of_nat npos (String.index p needle text).
Proof.
  intros Hp. unfold find, string_size.
  destruct (Z.ltb_spec (Z.of_nat (String.length text)) (Z.of_nat p)); [lia |].
  rewrite Nat2Z.id. by destruct (String.index p needle text).
Qed.

(** One turn of the loop of [expand_press] at a token. *)
Lemma expand_press_turn `{E : Externals} (fuel : nat) (line_proc : string) (pos : Z)
  (log : list string) :
  pos ≠ npos →
  expand_press (S fuel) line_proc pos log =
    let pos2 := find line_proc ">" pos in
    let action := substr line_proc (pos + 7) (wrap (pos2 - pos - 7)) in
    let replaced :=
      replace_all line_proc ("<press_" +:+ action +:+ ">")
        ("<color_light_blue>" +:+ press_x action +:+ "</color>") in
    expand_press fuel replaced (find replaced "<press_" pos2) log.
Proof.
  intros Hpos. cbn [expand_press].
  destruct (Z.eqb_spec pos npos); [done |]. by rewrite replace_not_empty.
Qed.

(** X14: a line without a complete token is only translated. When the
    translated line has no [<press_] at all, or when its first [<press_]
    has no [>] after it, the expansion ends after at most two turns and
    gives the translated line as it is, with nothing in the debug log. The
    line is shorter than [npos], as every [std::string] is. *)
Theorem line_without_token `{E : Externals} (fuel : nat) (line : string) :
  string_size (translate line) < npos →
  String.index 0 "<press_" (translate line) = None
  ∨ (∃ p, String.index 0 "<press_" (translate line) = Some p
          ∧ String.index p ">" (translate line) = None) →
  resolve_line (2 + fuel) line = Some (translate line, []).
Proof.
  intros Hsize [Hnone | (p & Hfirst & Hclose)]; unfold resolve_line.
  - change 0 with (Z.of_nat 0). rewrite find_at, Hnone by lia. done.
  - destruct (index_bounds _ _ _ _ Hfirst) as [_ Hp]. cbn [String.length] in Hp.
    change 0 with (Z.of_nat 0). rewrite find_at, Hfirst by lia. cbn [from_option].
    change (2 + fuel)%nat with (S (S fuel)).
    rewrite expand_press_turn by (unfold string_size in Hsize; lia).
    rewrite find_at, Hclose by lia. cbn [from_option]. cbn zeta.
    assert (∀ action after,
              replace_all (translate line) ("<press_" +:+ action +:+ ">") after
              = translate line) as Hsame.
    { intros action after. unfold replace_all.
      change (String.eqb ("<press_" +:+ action +:+ ">") "") with false. cbn iota.
      apply replace_from_missing. intros q. by apply (token_never_occurs _ _ p). }
    rewrite Hsame, find_past_end by done.
    cbn [expand_press]. by rewrite Z.eqb_refl.
Qed.

Lemma line_without_token_sample :
  @resolve_line sample (2 + 0) "Press <press_open to open"
  = Some ("Press <press_open to open", []).
Proof.
  apply (@line_without_token sample 0 "Press <press_open to open").
  - by vm_compute.
  - right. exists 6%nat. by vm_compute.
Defined.


(** ** Lines with one token, once or several times *)

Lemma lacks_app (c : ascii) (a b : string) :
  lacks c (a +:+ b) = lacks c a && lacks c b.
Proof.
  induction a as [|x a IH]; [done |].
  rewrite string_app_cons. cbn [lacks]. by rewrite IH, andb_assoc.
Qed.

Lemma prefix_other_head (c a : ascii) (t s : string) :
  Ascii.eqb a c = false → String.prefix (String c t) (String a s) = false.
Proof.
  intros Hne. rewrite prefix_cons. destruct (ascii_dec c a) as [->|]; [| done].
  by rewrite Ascii.eqb_refl in Hne.
Qed.

(** A text without the first character of a token is passed over. *)
Lemma lacks_inert (c : ascii) (t p : string) : lacks c p = true → inert (String c t) p.
Proof.
  intros Hp after rest. induction p as [|a p IH]; [done |].
  cbn [lacks] in Hp. apply andb_prop in Hp as [Ha Hp]. apply negb_true_iff in Ha.
  rewrite string_app_cons. cbn [replace_from].
  change (String a (p +:+ rest)) with (String a p +:+ rest).
  rewrite string_app_cons, (prefix_other_head _ _ _ _ Ha). by rewrite IH.
Qed.

Lemma inert_whole (t after p : string) : inert t p → replace_from t after 0 p = p.
Proof.
  intros Hp. rewrite <- (string_app_nil_r p) at 1. rewrite Hp. cbn.
  apply string_app_nil_r.
Qed.

Lemma concat_two (sep x y : string) (l : list string) :
  String.concat sep (x :: y :: l) = x +:+ sep +:+ String.concat sep (y :: l).
Proof. reflexivity. Qed.

(** Replacing a token between texts without [<]: every occurrence goes. *)
Lemma replace_joined (c : ascii) (t after : string) (pieces : list string) :
  Forall (λ p, lacks c p = true) pieces →
  replace_from (String c t) after 0 (String.concat (String c t) pieces)
  = String.concat after pieces.
Proof.
  induction 1 as [|x pieces Hx Hpieces IH]; [done |].
  destruct pieces as [|y pieces]; [by apply inert_whole, lacks_inert |].
  rewrite !concat_two. rewrite (lacks_inert _ _ _ Hx).
  by rewrite replace_from_token, IH.
Qed.

(** Where a needle is first found after a text without its first
    character. *)
Lemma index_after (c : ascii) (t pre rest : string) :
  lacks c pre = true →
  String.index 0 (String c t) (pre +:+ String c t +:+ rest)
  = Some (String.length pre).
Proof.
  intros Hpre. induction pre as [|a pre IH].
  - change (String.index 0 (String c t) (String c (t +:+ rest)) = Some 0%nat).
    cbn [String.index]. change (String c (t +:+ rest)) with (String c t +:+ rest).
    by rewrite prefix_refl_app.
  - cbn [lacks] in Hpre. apply andb_prop in Hpre as [Ha Hpre].
    apply negb_true_iff in Ha. rewrite string_app_cons. cbn [String.index].
    rewrite (prefix_other_head _ _ _ _ Ha), IH by done. done.
Qed.

Lemma index_from (t pre rest : string) :
  String.index (String.length pre) t (pre +:+ rest)
  = (λ m, String.length pre + m)%nat <$> String.index 0 t rest.
Proof.
  induction pre as [|a pre IH].
  - change (String.index 0 t rest = (λ m, 0 + m)%nat <$> String.index 0 t rest).
    by destruct (String.index 0 t rest).
  - rewrite string_app_cons. cbn [String.length String.index]. rewrite IH.
    by destruct (String.index 0 t rest).
Qed.

Lemma substring_head (b c : string) :
  String.substring 0 (String.length b) (b +:+ c) = b.
Proof.
  induction b as [|y b IH]; [by destruct c |].
  rewrite string_app_cons. cbn [String.length String.substring]. by rewrite IH.
Qed.

Lemma substring_middle (a b c : string) :
  String.substring (String.length a) (String.length b) (a +:+ b +:+ c) = b.
Proof. induction a as [|x a IH]; [exact (substring_head b c) | exact IH]. Qed.

Lemma length_app_string (a b : string) :
  String.length (a +:+ b) = (String.length a + String.length b)%nat.
Proof. induction a as [|x a IH]; [done |]. rewrite string_app_cons. cbn. by rewrite IH. Qed.

Lemma absent_index_from (t text : string) (n : nat) :
  t ≠ EmptyString → absent t text = true → String.index n t text = None.
Proof.
  intros Ht. revert n. induction text as [|c text IH]; intros n Habs.
  - destruct n; [by destruct t | done].
  - cbn [absent] in Habs. apply andb_prop in Habs as [Hhere Habs].
    apply negb_true_iff in Hhere. destruct n as [|n]; cbn [String.index].
    + by rewrite Hhere, IH.
    + by rewrite IH.
Qed.

(** No [<press_] is left between texts without [<] that are joined by the
    coloured description of an action. *)
Lemma joined_without_press (desc : string) (pieces : list string) :
  lacks "<" desc = true →
  Forall (λ p, lacks "<" p = true) pieces →
  absent "<press_"
    (String.concat ("<color_light_blue>" +:+ desc +:+ "</color>") pieces) = true.
Proof.
  intros Hdesc Hpieces. apply replace_fixed_absent.
  assert (inert "<press_" ("<color_light_blue>" +:+ desc +:+ "</color>")) as Hsep.
  { apply inert_app; [by apply no_clash_inert |].
    apply inert_app; [by apply lacks_inert | by apply no_clash_inert]. }
  induction Hpieces as [|x pieces Hx Hpieces IH]; [done |].
  destruct pieces as [|y pieces]; [by apply inert_whole, lacks_inert |].
  rewrite concat_two.
  rewrite (lacks_inert "<" "press_" _ Hx), Hsep. by rewrite IH.
Qed.

Lemma find_absent (text t : string) (pos : Z) :
  t ≠ EmptyString → absent t text = true → find text t pos = npos.
Proof.
  intros Ht Habs. unfold find. destruct (string_size text <? pos); [done |].
  by rewrite absent_index_from.
Qed.

(** The first token of a line: where it starts, where it ends, and the
    action that it names. *)
Lemma first_token_found (pre action rest : string) :
  lacks "<" pre = true → lacks ">" action = true →
  string_size (pre +:+ "<press_" +:+ action +:+ ">" +:+ rest) < npos →
  let text := pre +:+ "<press_" +:+ action +:+ ">" +:+ rest in
  let pos := Z.of_nat (String.length pre) in
  let pos2 := Z.of_nat (String.length pre + (7 + String.length action)) in
  find text "<press_" 0 = pos
  ∧ find text ">" pos = pos2
  ∧ substr text (pos + 7) (wrap (pos2 - pos - 7)) = action.
Proof.
  intros Hpre Haction Hsize. cbn zeta.
  unfold string_size, npos, size_max in Hsize.
  rewrite !length_app_string in Hsize. cbn [String.length] in Hsize.
  split; [| split].
  - change 0 with (Z.of_nat 0). rewrite find_at by lia.
    by rewrite (index_after "<" "press_" pre _ Hpre).
  - rewrite find_at by (rewrite length_app_string; lia).
    rewrite index_from.
    rewrite <- (string_app_assoc "<press_" action).
    rewrite (index_after ">" "" ("<press_" +:+ action) rest)
      by (by rewrite lacks_app, Haction).
    cbn [fmap option_fmap option_map from_option]. by rewrite length_app_string.
  - unfold substr, wrap, size_max.
    replace (Z.of_nat (String.length pre + (7 + String.length action))
             - Z.of_nat (String.length pre) - 7)
      with (Z.of_nat (String.length action)) by lia.
    rewrite Z.mod_small by lia.
    replace (Z.to_nat (Z.of_nat (String.length pre) + 7))
      with (String.length pre + 7)%nat by lia.
    rewrite !length_app_string. cbn [String.length].
    destruct (Z.leb_spec
                (Z.of_nat (String.length pre
                           + (7 + (String.length action + (1 + String.length rest)))
                           - (String.length pre + 7)))
                (Z.of_nat (String.length action))); [lia |].
    rewrite Nat2Z.id, <- (string_app_assoc pre "<press_").
    replace (String.length pre + 7)%nat with (String.length (pre +:+ "<press_"))
      by (by rewrite length_app_string).
    apply substring_middle.
Qed.

(** X16: a line in which one token stands once or several times, between
    texts without [<], resolves to the line with the coloured description
    of the action at every place of the token. The name of the action has
    no [>], its description has no [<], and the line is shorter than
    [npos], as every [std::string] is. *)
Theorem repeated_token_expanded `{E : Externals} (fuel : nat) (line action : string)
  (first second : string) (others : list string) :
  translate line
  = String.concat ("<press_" +:+ action +:+ ">") (first :: second :: others) →
  Forall (λ p, lacks "<" p = true) (first :: second :: others) →
  lacks ">" action = true →
  lacks "<" (press_x action) = true →
  string_size (translate line) < npos →
  resolve_line (2 + fuel) line
  = Some (String.concat ("<color_light_blue>" +:+ press_x action +:+ "</color>")
            (first :: second :: others), []).
Proof.
  intros Hline Hpieces Haction Hdesc Hsize. unfold resolve_line.
  set (rest := String.concat ("<press_" +:+ action +:+ ">") (second :: others)).
  assert (translate line = first +:+ "<press_" +:+ action +:+ ">" +:+ rest) as Htext
    by (by rewrite Hline, concat_two, !string_app_assoc).
  rewrite Htext in Hsize.
  destruct (first_token_found first action rest) as (Hpos & Hpos2 & Hact);
    [by inv Hpieces | done | done |].
  cbn zeta in Hpos, Hpos2, Hact.
  change (2 + fuel)%nat with (S (S fuel)).
  rewrite Htext, Hpos.
  rewrite expand_press_turn
    by (unfold string_size, npos, size_max in *;
        rewrite length_app_string in Hsize; lia).
  cbn zeta. rewrite Hpos2, Hact, <- Htext, Hline.
  assert (replace_all
            (String.concat ("<press_" +:+ action +:+ ">") (first :: second :: others))
            ("<press_" +:+ action +:+ ">")
            ("<color_light_blue>" +:+ press_x action +:+ "</color>")
          = String.concat ("<color_light_blue>" +:+ press_x action +:+ "</color>")
              (first :: second :: others)) as ->.
  { unfold replace_all.
    change (String.eqb ("<press_" +:+ action +:+ ">") "") with false. cbn iota.
    exact (replace_joined "<" ("press_" +:+ action +:+ ">") _ _ Hpieces). }
  rewrite find_absent by (done || by apply joined_without_press).
  cbn [expand_press]. by rewrite Z.eqb_refl.
Qed.

Lemma repeated_token_expanded_sample :
  @resolve_line sample (2 + 0) "Press <press_open> or <press_open> to open."
  = Some (String.concat ("<color_light_blue>" +:+ @press_x sample "open" +:+ "</color>")
            ["Press "; " or "; " to open."], []).
Proof.
  apply (@repeated_token_expanded sample 0
           "Press <press_open> or <press_open> to open." "open"
           "Press " " or " [" to open."]).
  - by vm_compute.
  - repeat constructor.
  - reflexivity.
  - reflexivity.
  - by vm_compute.
Defined.
